(** * msggen: the Rust generator (contrib/msggen/msggen/rust.py)

    A shallow embedding of the schema-to-Rust renderer: the Python string
    operations it relies on, the field tree it walks, the per-kind
    renderers [gen_primitive], [gen_enum], [gen_array], [gen_composite]
    and the service emitter [RustGenerator.generate].

    Python strings are modelled by [string]; a character is a code point
    below 256.  Rendering mutates the tree it walks ([normalize_varname]
    assigns to [field.path]) and may raise, so every renderer returns the
    tree as it is left behind together with either its result or the
    exception raised. *)

From Stdlib Require Import String Ascii List Bool NArith ZArith Lia.
From Stdlib Require Import DecimalString.
Import ListNotations.
Open Scope string_scope.

Set Implicit Arguments.

(* ================================================================== *)
(** ** Python's [str] operations used by the generator                 *)
(* ================================================================== *)

Module PyStr.

Definition code (c : ascii) : N := N_of_ascii c.

(** The regular-expression class [[A-Z]]. *)
Definition is_upper (c : ascii) : bool :=
  ((65 <=? code c) && (code c <=? 90))%N.

(** [str.lower] on one code point below 256: the ASCII capitals and
    the Latin-1 capitals U+00C0..U+00DE (U+00D7, the multiplication
    sign, excepted) move up by 32. *)
Definition lower_char (c : ascii) : ascii :=
  let n := code c in
  if (is_upper c
      || ((192 <=? n) && (n <=? 222) && negb (n =? 215)))%N
  then ascii_of_N (n + 32) else c.

Fixpoint map_chars (f : ascii -> ascii) (s : string) : string :=
  match s with
  | "" => ""
  | String c s' => String (f c) (map_chars f s')
  end.

Definition lower (s : string) : string := map_chars lower_char s.

(** [s.startswith(p)]. *)
Fixpoint startswith (s p : string) {struct p} : bool :=
  match p with
  | "" => true
  | String a p' =>
      match s with
      | "" => false
      | String b s' => Ascii.eqb a b && startswith s' p'
      end
  end.

(** [new.join] between and around the characters of [s]: what
    [s.replace("", new)] returns. *)
Fixpoint interleave (new s : string) : string :=
  match s with
  | "" => new
  | String c s' => new ++ String c (interleave new s')
  end.

(** Left-to-right, non-overlapping replacement; [skip] counts the
    characters of a match still to be dropped. *)
Fixpoint replace_from (old new : string) (skip : nat) (s : string) : string :=
  match s with
  | "" => ""
  | String c s' =>
      match skip with
      | S k => replace_from old new k s'
      | O =>
          if startswith s old
          then new ++ replace_from old new (String.length old - 1) s'
          else String c (replace_from old new 0 s')
      end
  end.

(** [s.replace(old, new)]. *)
Definition replace (old new s : string) : string :=
  match old with
  | "" => interleave new s
  | _ => replace_from old new 0 s
  end.

(** [re.sub(r'(?<!^)(?=[A-Z])', '_', s)]: an underscore goes in front
    of every capital that is not the first character. *)
Fixpoint underscore_capitals (s : string) : string :=
  match s with
  | "" => ""
  | String c s' =>
      if is_upper c then String "_" (String c (underscore_capitals s'))
      else String c (underscore_capitals s')
  end.

Definition re_sub_snake (s : string) : string :=
  match s with
  | "" => ""
  | String c s' => String c (underscore_capitals s')
  end.

(** [s.split(sep)] for a one-character separator; never empty. *)
Fixpoint split (sep : ascii) (s : string) : list string :=
  match s with
  | "" => [""]
  | String c s' =>
      match split sep s' with
      | [] => [String c ""]
      | seg :: rest =>
          if Ascii.eqb c sep then "" :: seg :: rest
          else String c seg :: rest
      end
  end.

(** [s[:-2]]. *)
Definition drop_last2 (s : string) : string :=
  substring 0 (String.length s - 2) s.

(** [s * n] for a Python integer [n]: empty when [n <= 0]. *)
Fixpoint repeat_nat (s : string) (n : nat) : string :=
  match n with
  | O => ""
  | S k => s ++ repeat_nat s k
  end.

Definition repeat (s : string) (n : Z) : string := repeat_nat s (Z.to_nat n).

(** [sub in s]. *)
Fixpoint contains (s sub : string) : bool :=
  startswith s sub
  || match s with
     | "" => false
     | String _ s' => contains s' sub
     end.

(** [s.count(sub)] for a non-empty [sub] (non-overlapping matches). *)
Fixpoint count_from (sub : string) (skip : nat) (s : string) : nat :=
  match s with
  | "" => 0
  | String _ s' =>
      match skip with
      | S k => count_from sub k s'
      | O =>
          if startswith s sub
          then S (count_from sub (String.length sub - 1) s')
          else count_from sub 0 s'
      end
  end.

Definition count (s sub : string) : nat := count_from sub 0 s.

Definition concat (l : list string) : string := String.concat "" l.

(** [str(n)] for a non-negative integer. *)
Definition of_nat (n : nat) : string := NilEmpty.string_of_uint (Nat.to_uint n).

(** The characters that have no notation inside a string. *)
Definition nl_char : ascii := "010"%char.
Definition tab_char : ascii := "009"%char.
Definition nl : string := String nl_char "".
Definition tab : string := String tab_char "".
Definition dq : string := String "034"%char "".

(** [str(x)] where [x] is a string or [None]. *)
Definition of_optional (x : option string) : string :=
  match x with
  | Some s => s
  | None => "None"
  end.

Fixpoint join (sep : string) (l : list string) : string :=
  match l with
  | [] => ""
  | [x] => x
  | x :: rest => x ++ sep ++ join sep rest
  end.

End PyStr.

(* ================================================================== *)
(** ** Python's [textwrap]: [dedent] and [indent]                      *)
(* ================================================================== *)

Module Textwrap.
Import PyStr.

Definition is_blank (c : ascii) : bool :=
  Ascii.eqb c " " || Ascii.eqb c tab_char.

Fixpoint all_blank (s : string) : bool :=
  match s with
  | "" => true
  | String c s' => is_blank c && all_blank s'
  end.

Fixpoint leading_blanks (s : string) : string :=
  match s with
  | "" => ""
  | String c s' => if is_blank c then String c (leading_blanks s') else ""
  end.

Fixpoint common_prefix (a b : string) : string :=
  match a, b with
  | String x a', String y b' =>
      if Ascii.eqb x y then String x (common_prefix a' b') else ""
  | _, _ => ""
  end.

(** One step of the margin loop of [dedent]. *)
Definition update_margin (margin : option string) (ind : string) : option string :=
  match margin with
  | None => Some ind
  | Some m =>
      if startswith ind m then Some m
      else if startswith m ind then Some ind
      else Some (common_prefix m ind)
  end.

(** The indentations [_leading_whitespace_re] finds: one for every
    line that has a character other than space and tab. *)
Definition indents (lines : list string) : list string :=
  map leading_blanks (filter (fun l => negb (all_blank l)) lines).

Definition strip_margin (m line : string) : string :=
  if startswith line m
  then substring (String.length m) (String.length line - String.length m) line
  else line.

(** [textwrap.dedent]: lines made of spaces and tabs only are emptied,
    then the common leading whitespace of the other lines is removed
    from every line. *)
Definition dedent (text : string) : string :=
  let lines := map (fun l => if all_blank l then "" else l) (split nl_char text) in
  match fold_left update_margin (indents lines) None with
  | Some (String c m) => join nl (map (strip_margin (String c m)) lines)
  | _ => join nl lines
  end.

(** The boundaries [str.splitlines] cuts at, a carriage return that a
    line feed follows being cut after the line feed. *)
Definition is_linebreak (c : ascii) : bool :=
  let n := code c in
  ((n =? 10) || (n =? 11) || (n =? 12) || (n =? 13)
   || (n =? 28) || (n =? 29) || (n =? 30) || (n =? 133))%N.

(** [s.splitlines(True)]. *)
Fixpoint splitlines_keepends (s : string) : list string :=
  match s with
  | "" => []
  | String c s' =>
      let rest := splitlines_keepends s' in
      if is_linebreak c && negb (Ascii.eqb c "013" && startswith s' nl)
      then String c "" :: rest
      else match rest with
           | [] => [String c ""]
           | l :: ls => String c l :: ls
           end
  end.

(** [c.isspace()]. *)
Definition is_space (c : ascii) : bool :=
  let n := code c in
  (((9 <=? n) && (n <=? 13)) || ((28 <=? n) && (n <=? 32))
   || (n =? 133) || (n =? 160))%N.

Fixpoint all_space (s : string) : bool :=
  match s with
  | "" => true
  | String c s' => is_space c && all_space s'
  end.

(** [textwrap.indent(text, prefix)]: the prefix goes in front of
    every line that is not made of whitespace only. *)
Definition indent (text prefix : string) : string :=
  concat (map (fun line => if all_space line then line else prefix ++ line)
              (splitlines_keepends text)).

End Textwrap.

(* ================================================================== *)
(** ** Dictionaries of the module: [overrides] and [typemap]           *)
(* ================================================================== *)

(** A dict literal with string keys, looked up only. *)
Definition dict (V : Type) : Type := list (string * V).

Fixpoint dict_lookup {V : Type} (d : dict V) (k : string) : option V :=
  match d with
  | [] => None
  | (k', v) :: d' => if String.eqb k' k then Some v else dict_lookup d' k
  end.

(** [k in d]. *)
Definition dict_mem {V : Type} (d : dict V) (k : string) : bool :=
  match dict_lookup d k with Some _ => true | None => false end.

(** [d.get(k, default)]. *)
Definition dict_get {V : Type} (d : dict V) (k : string) (default : V) : V :=
  match dict_lookup d k with Some v => v | None => default end.

(** The following words need to be changed, otherwise they'd clash with
    built-in keywords.  (No renderer reads this list.) *)
Definition keywords : list string := ["in"; "type"].

(** Manual overrides for some of the auto-generated types for paths.
    The value [None] is Python's [None]. *)
Definition overrides : dict (option string) :=
  [ ("ListPeers.peers[].channels[].state_changes[].old_state", Some "ChannelState");
    ("ListPeers.peers[].channels[].state_changes[].new_state", Some "ChannelState");
    ("ListPeers.peers[].channels[].state_changes[].cause", Some "ChannelStateChangeCause");
    ("ListPeers.peers[].channels[].opener", Some "ChannelSide");
    ("ListPeers.peers[].channels[].closer", Some "ChannelSide");
    ("ListPeers.peers[].channels[].features[]", Some "string");
    ("ListFunds.channels[].state", Some "ChannelState");
    ("ListTransactions.transactions[].type[]", None) ].

(** A map of schema type to rust primitive types. *)
Definition typemap : dict string :=
  [ ("boolean", "bool");
    ("hex", "String");
    ("msat", "Amount");
    ("msat|all", "AmountOrAll");
    ("msat|any", "AmountOrAny");
    ("number", "i64");
    ("pubkey", "String");
    ("short_channel_id", "String");
    ("signature", "String");
    ("string", "String");
    ("txid", "String");
    ("float", "f32");
    ("utxo", "Utxo");
    ("feerate", "Feerate") ].

(* ================================================================== *)
(** ** The field model                                                 *)
(* ================================================================== *)

(** The attributes every field carries.  [description] is [None] when
    the schema gives none. *)
Record FieldBase : Type := mkBase {
  path : string;
  description : option string;
  required : bool
}.

(** A schema node.  [OtherField] stands for a [Field] that is none of
    the four kinds [gen_field] dispatches on.  An enum variant [None] is
    Python's [None]. *)
#[local] Unset Elimination Schemes.
Inductive Field : Type :=
| PrimitiveField (b : FieldBase) (typename : string)
| EnumField (b : FieldBase) (typename : string) (variants : list (option string))
| ArrayField (b : FieldBase) (itemtype : Field) (dims : Z)
| CompositeField (b : FieldBase) (typename : string) (fields : list Field)
| OtherField (b : FieldBase).
#[local] Set Elimination Schemes.

Definition base (f : Field) : FieldBase :=
  match f with
  | PrimitiveField b _ | EnumField b _ _ | ArrayField b _ _
  | CompositeField b _ _ | OtherField b => b
  end.

(** Modelled from the spec: the class [Field] of [msggen.model] is not
    among the sources.  The name of a field is the last dotted component
    of its path, which is what lets [normalize_varname], which assigns to
    [field.path] only, change the name [gen_primitive] prints. *)
Definition name_of_path (p : string) : string :=
  List.last (PyStr.split "." p) "".

Definition name (b : FieldBase) : string := name_of_path (path b).

(** The methods of [msggen.model] the renderer calls and whose bodies
    are not among the sources: [FieldName.normalized] and
    [EnumVariant.normalized]. *)
Class FieldModel : Type := {
  FieldName_normalized : string -> string;
  EnumVariant_normalized : string -> string
}.

(** [with_path b p]: [b] after the assignment [b.path = p]. *)
Definition with_path (b : FieldBase) (p : string) : FieldBase :=
  {| path := p; description := description b; required := required b |}.

(** [normalize_varname]: makes sure that the variable name of this field
    is valid.  Dashes are not valid names. *)
Definition normalize_path (p : string) : string :=
  PyStr.lower (PyStr.re_sub_snake (PyStr.replace "-" "_" p)).

Definition normalize_varname (b : FieldBase) : FieldBase :=
  let b1 := with_path b (PyStr.replace "-" "_" (path b)) in
  with_path b1 (PyStr.lower (PyStr.re_sub_snake (path b1))).

(* ================================================================== *)
(** ** Exceptions and results                                          *)
(* ================================================================== *)

Inductive PyError : Type :=
| AttributeError
| UnboundLocalError
| ValueError.

Inductive result (A : Type) : Type :=
| OK (a : A)
| Raise (e : PyError).
Arguments Raise {A} e.

Definition bind {A B : Type} (c : result A) (k : A -> result B) : result B :=
  match c with
  | OK a => k a
  | Raise e => Raise e
  end.

Notation "x <- c ;; k" := (bind c (fun x => k))
  (at level 61, c at next level, right associativity).

(** What a renderer returns: the fragment [defi] for the parent's
    declaration and the standalone declarations [decl]. *)
Definition Rendered : Type := (string * string)%type.

(* ================================================================== *)
(** ** The renderers                                                   *)
(* ================================================================== *)

Section Renderer.
Import PyStr Textwrap.
Context {model : FieldModel}.

(** The first loop of [gen_enum]: one line per variant, [None]
    skipped. *)
Fixpoint enum_variant_lines (variants : list (option string)) : string :=
  match variants with
  | [] => ""
  | None :: rest => enum_variant_lines rest
  | Some v :: rest =>
      "    " ++ EnumVariant_normalized v ++ "," ++ nl ++ enum_variant_lines rest
  end.

(** One arm of the generated [match]. *)
Definition enum_arm (typename : string) (i : nat) (norm : string) : string :=
  "    " ++ of_nat i ++ " => Ok(" ++ typename ++ "::" ++ norm ++ ")," ++ nl.

(** The second loop of [gen_enum], over [enumerate(e.variants)] from
    index [i] on: [v.normalized()] is called on every variant, and
    [None] has no such attribute. *)
Fixpoint enum_match_arms (typename : string) (i : nat)
         (variants : list (option string)) : result string :=
  match variants with
  | [] => OK ""
  | None :: _ => Raise AttributeError
  | Some v :: rest =>
      arms <- enum_match_arms typename (S i) rest ;;
      OK (enum_arm typename i (EnumVariant_normalized v) ++ arms)
  end.

Definition enum_decl_head (b : FieldBase) (typename : string) : string :=
  (match description b with
   | Some "" => ""
   | d => "/// " ++ of_optional d ++ nl
   end)
  ++ "#[derive(Copy, Clone, Debug, Deserialize, Serialize)]" ++ nl
  ++ "#[serde(rename_all = " ++ dq ++ "lowercase" ++ dq ++ ")]" ++ nl
  ++ "pub enum " ++ typename ++ " {" ++ nl.

Definition enum_impl_head (typename : string) : string :=
  dedent ("    impl TryFrom<i32> for " ++ typename ++ " {" ++ nl
          ++ "        type Error = anyhow::Error;" ++ nl
          ++ "        fn try_from(c: i32) -> Result<" ++ typename
          ++ ", anyhow::Error> {" ++ nl
          ++ "            match c {" ++ nl
          ++ "    ").

Definition enum_impl_tail (typename : string) : string :=
  dedent ("                o => Err(anyhow::anyhow!(" ++ dq
          ++ "Unknown variant {} for enum " ++ typename ++ dq ++ ", o))," ++ nl
          ++ "            }" ++ nl
          ++ "        }" ++ nl
          ++ "    }" ++ nl
          ++ "    ").

(** The fragment of an enum field; [typename] is the enum's own type
    name or the value found in [overrides]. *)
Definition enum_defi (b : FieldBase) (typename : option string) : string :=
  if required b
  then "    // Path `" ++ path b ++ "`" ++ nl
       ++ "    #[serde(rename = " ++ dq ++ name b ++ dq ++ ")]" ++ nl
       ++ "    pub " ++ FieldName_normalized (name b) ++ ": "
       ++ of_optional typename ++ "," ++ nl
  else
    (* the first assignment is overwritten by the second *)
    let defi := "    #[serde(skip_serializing_if = " ++ dq ++ "Option::is_none" ++ dq
                ++ ")]" ++ nl in
    let defi := "    pub " ++ FieldName_normalized (name b) ++ ": Option<"
                ++ of_optional typename ++ ">," ++ nl in
    defi.

Definition gen_enum (b : FieldBase) (typename : string)
           (variants : list (option string)) : result Rendered :=
  let decl := enum_decl_head b typename ++ enum_variant_lines variants
              ++ "}" ++ nl ++ nl in
  let decl := decl ++ enum_impl_head typename in
  arms <- enum_match_arms typename 0 variants ;;
  let decl := decl ++ arms ++ enum_impl_tail typename in
  match dict_lookup overrides (path b) with
  | Some over => OK (enum_defi b over, "")
  | None => OK (enum_defi b (Some typename), decl)
  end.

Definition primitive_defi (org : string) (b : FieldBase) (typename : string) : string :=
  if required b
  then "    #[serde(alias = " ++ dq ++ org ++ dq ++ ")]" ++ nl
       ++ "    pub " ++ name b ++ ": " ++ typename ++ "," ++ nl
  else "    #[serde(alias = " ++ dq ++ org ++ dq
       ++ ", skip_serializing_if = " ++ dq ++ "Option::is_none" ++ dq ++ ")]" ++ nl
       ++ "    pub " ++ name b ++ ": Option<" ++ typename ++ ">," ++ nl.

(** [gen_primitive]: the field is left with its path normalized. *)
Definition gen_primitive (b : FieldBase) (typename : string) : FieldBase * Rendered :=
  let org := name b in
  let typename := dict_get typemap typename typename in
  let b := normalize_varname b in
  (b, (primitive_defi org b typename, "")).

(** The [if]/[elif] chain of [gen_array] that binds [itemtype]; no
    branch binds it when the path is not overridden and the item is
    neither a primitive, a composite nor an enum. *)
Definition array_itemtype (b : FieldBase) (itemtype : Field) : result (option string) :=
  match dict_lookup overrides (path b) with
  | Some over => OK over
  | None =>
      match itemtype with
      | PrimitiveField _ typename => OK (Some typename)
      | CompositeField _ typename _ => OK (Some typename)
      | EnumField _ typename _ => OK (Some typename)
      | _ => Raise UnboundLocalError
      end
  end.

Definition array_defi (alias name : string) (dims : Z) (itemtype : string) : string :=
  "    #[serde(alias = " ++ dq ++ alias ++ dq ++ ")]" ++ nl
  ++ "    pub " ++ name ++ ": " ++ repeat "Vec<" dims ++ itemtype
  ++ repeat ">" dims ++ "," ++ nl.

(** [gen_array] once [gen_field(a.itemtype)] has returned [rendered];
    [itemtype] is the item as that call left it. *)
Definition gen_array_body (b : FieldBase) (itemtype : Field) (dims : Z)
           (rendered : result Rendered) : result Rendered :=
  let ident := replace "[]" "" (FieldName_normalized (name b)) in
  r <- rendered ;;
  let decl := if dict_mem overrides (path b) then "" else snd r in
  ty <- array_itemtype b itemtype ;;
  match ty with
  | None => OK ("", "")
  | Some ty =>
      let ty := dict_get typemap ty ty in
      let alias := drop_last2 (FieldName_normalized (name b)) in
      OK (array_defi alias ident dims ty, decl)
  end.

(** The loop of [gen_composite]: [gen_field] on every child in order.
    A child that raises stops the loop; the children before it, and the
    part of itself it had changed, stay changed. *)
Section Loop.
Variable render : Field -> Field * result Rendered.

Fixpoint render_all (fields : list Field) : list Field * result (list Rendered) :=
  match fields with
  | [] => ([], OK [])
  | f :: rest =>
      let (f', r) := render f in
      match r with
      | Raise e => (f' :: rest, Raise e)
      | OK x =>
          let (rest', rs) := render_all rest in
          (f' :: rest', xs <- rs ;; OK (x :: xs))
      end
  end.
End Loop.

Definition struct_head (typename : string) : string :=
  "#[derive(Clone, Debug, Deserialize, Serialize)]" ++ nl
  ++ "pub struct " ++ typename ++ " {" ++ nl.

(** [gen_composite] once the loop has filled [fields]. *)
Definition gen_composite_body (typename : string) (fields : list Rendered) : Rendered :=
  let r := concat (map snd fields) in
  let r := r ++ struct_head typename in
  let r := r ++ concat (map fst fields) in
  let r := r ++ "}" ++ nl ++ nl in
  ("", r).

Fixpoint gen_field (field : Field) : Field * result Rendered :=
  match field with
  | CompositeField b typename fields =>
      let (fields', rs) := render_all gen_field fields in
      (CompositeField b typename fields',
       fs <- rs ;; OK (gen_composite_body typename fs))
  | EnumField b typename variants =>
      (field, gen_enum b typename variants)
  | ArrayField b itemtype dims =>
      let (itemtype', rendered) := gen_field itemtype in
      (ArrayField b itemtype' dims, gen_array_body b itemtype' dims rendered)
  | PrimitiveField b typename =>
      let (b', r) := gen_primitive b typename in
      (PrimitiveField b' typename, OK r)
  | OtherField _ => (field, Raise ValueError)
  end.

(** [gen_array(a)] and [gen_composite(c)] as Python runs them on any
    object: one that lacks the attribute [itemtype], respectively
    [fields], raises. *)
Definition gen_array (a : Field) : Field * result Rendered :=
  match a with
  | ArrayField _ _ _ => gen_field a
  | _ => (a, Raise AttributeError)
  end.

Definition gen_composite (c : Field) : Field * result Rendered :=
  match c with
  | CompositeField _ _ _ => gen_field c
  | _ => (c, Raise AttributeError)
  end.

End Renderer.

(* ================================================================== *)
(** ** The service emitter: [RustGenerator]                            *)
(* ================================================================== *)

Record Method : Type := mkMethod {
  method_name : string;
  request : Field;
  response : Field
}.

Record Service : Type := mkService {
  methods : list Method
}.

(** [field.typename]: arrays and fields of no known kind have no such
    attribute. *)
Definition typename_of (f : Field) : result string :=
  match f with
  | PrimitiveField _ t | EnumField _ t _ | CompositeField _ t _ => OK t
  | ArrayField _ _ _ | OtherField _ => Raise AttributeError
  end.

Section Generator.
Import PyStr Textwrap.
Context {model : FieldModel}.

(** [sys.argv], which the module reads once to build [header]. *)
Variable argv : list string.

Definition header : string :=
  "#![allow(non_camel_case_types)]" ++ nl
  ++ "//! This file was automatically generated using the following command:" ++ nl
  ++ "//!" ++ nl
  ++ "//! ```bash" ++ nl
  ++ "//! " ++ join " " argv ++ nl
  ++ "//! ```" ++ nl
  ++ "//!" ++ nl
  ++ "//! Do not edit this file, it'll be overwritten. Rather edit the schema that" ++ nl
  ++ "//! this file was generated from" ++ nl
  ++ nl.

(** [RustGenerator.write]; [dest] is the text written so far.  With a
    positive [numindent] the text is indented as given, not
    dedented. *)
Definition write (dest text : string) (numindent : Z) : string :=
  let raw := dedent text in
  let raw := if (0 <? numindent)%Z then indent text (repeat tab numindent) else raw in
  dest ++ raw.

Fixpoint requests_loop (ms : list Method) (dest : string)
  : list Method * string * result unit :=
  match ms with
  | [] => ([], dest, OK tt)
  | meth :: rest =>
      let (req, r) := gen_composite (request meth) in
      let meth' := mkMethod (method_name meth) req (response meth) in
      match r with
      | Raise e => (meth' :: rest, dest, Raise e)
      | OK (_, decl) =>
          let '(rest', dest', r') := requests_loop rest (write dest decl 1) in
          (meth' :: rest', dest', r')
      end
  end.

Definition requests_head : string :=
  "        pub mod requests {" ++ nl
  ++ "            #[allow(unused_imports)]" ++ nl
  ++ "            use crate::primitives::*;" ++ nl
  ++ "            #[allow(unused_imports)]" ++ nl
  ++ "            use serde::{{Deserialize, Serialize}};" ++ nl
  ++ nl
  ++ "        ".

Definition generate_requests (service : Service) (dest : string)
  : Service * string * result unit :=
  let dest := write dest requests_head 0 in
  let '(ms, dest, r) := requests_loop (methods service) dest in
  match r with
  | Raise e => (mkService ms, dest, Raise e)
  | OK _ => (mkService ms, write dest ("}" ++ nl ++ nl) 0, OK tt)
  end.

Fixpoint responses_loop (ms : list Method) (dest : string)
  : list Method * string * result unit :=
  match ms with
  | [] => ([], dest, OK tt)
  | meth :: rest =>
      let (res, r) := gen_composite (response meth) in
      let meth' := mkMethod (method_name meth) (request meth) res in
      match r with
      | Raise e => (meth' :: rest, dest, Raise e)
      | OK (_, decl) =>
          let '(rest', dest', r') := responses_loop rest (write dest decl 1) in
          (meth' :: rest', dest', r')
      end
  end.

Definition responses_head : string :=
  nl
  ++ "        pub mod responses {" ++ nl
  ++ "            #[allow(unused_imports)]" ++ nl
  ++ "            use crate::primitives::*;" ++ nl
  ++ "            #[allow(unused_imports)]" ++ nl
  ++ "            use serde::{{Deserialize, Serialize}};" ++ nl
  ++ nl
  ++ "        ".

Definition generate_responses (service : Service) (dest : string)
  : Service * string * result unit :=
  let dest := write dest responses_head 0 in
  let '(ms, dest, r) := responses_loop (methods service) dest in
  match r with
  | Raise e => (mkService ms, dest, Raise e)
  | OK _ => (mkService ms, write dest ("}" ++ nl ++ nl) 0, OK tt)
  end.

(** The two loops of [generate_enums]: one variant line per method. *)
Fixpoint request_variants (ms : list Method) (dest : string) : string * result unit :=
  match ms with
  | [] => (dest, OK tt)
  | method :: rest =>
      match typename_of (request method) with
      | Raise e => (dest, Raise e)
      | OK t =>
          request_variants rest
            (write dest (method_name method ++ "(requests::" ++ t ++ ")," ++ nl) 1)
      end
  end.

Fixpoint response_variants (ms : list Method) (dest : string) : string * result unit :=
  match ms with
  | [] => (dest, OK tt)
  | method :: rest =>
      match typename_of (response method) with
      | Raise e => (dest, Raise e)
      | OK t =>
          response_variants rest
            (write dest (method_name method ++ "(responses::" ++ t ++ ")," ++ nl) 1)
      end
  end.

Definition request_enum_head : string :=
  "        use serde::{Deserialize, Serialize};" ++ nl
  ++ "        pub use requests::*;" ++ nl
  ++ "        pub use responses::*;" ++ nl
  ++ nl
  ++ "        #[derive(Clone, Debug, Serialize, Deserialize)]" ++ nl
  ++ "        #[serde(tag = " ++ dq ++ "method" ++ dq ++ ", content = "
  ++ dq ++ "params" ++ dq ++ ")]" ++ nl
  ++ "        #[serde(rename_all = " ++ dq ++ "lowercase" ++ dq ++ ")]" ++ nl
  ++ "        pub enum Request {" ++ nl
  ++ "        ".

Definition response_enum_head : string :=
  "        }" ++ nl
  ++ nl
  ++ "        #[derive(Clone, Debug, Serialize, Deserialize)]" ++ nl
  ++ "        #[serde(tag = " ++ dq ++ "method" ++ dq ++ ", content = "
  ++ dq ++ "result" ++ dq ++ ")]" ++ nl
  ++ "        #[serde(rename_all = " ++ dq ++ "lowercase" ++ dq ++ ")]" ++ nl
  ++ "        pub enum Response {" ++ nl
  ++ "        ".

Definition response_enum_tail : string :=
  "        }" ++ nl ++ nl ++ "        ".

(** The Request and Response enums serve as parsing primitives. *)
Definition generate_enums (service : Service) (dest : string) : string * result unit :=
  let dest := write dest request_enum_head 0 in
  match request_variants (methods service) dest with
  | (dest, Raise e) => (dest, Raise e)
  | (dest, OK _) =>
      let dest := write dest response_enum_head 0 in
      match response_variants (methods service) dest with
      | (dest, Raise e) => (dest, Raise e)
      | (dest, OK _) => (write dest response_enum_tail 0, OK tt)
      end
  end.

(** [RustGenerator.generate]: the service as the run leaves it, the
    text written to [dest], and whether the run raised. *)
Definition generate (service : Service) : Service * string * result unit :=
  let dest := write "" header 0 in
  match generate_enums service dest with
  | (dest, Raise e) => (service, dest, Raise e)
  | (dest, OK _) =>
      match generate_requests service dest with
      | (service, dest, Raise e) => (service, dest, Raise e)
      | (service, dest, OK _) => generate_responses service dest
      end
  end.

End Generator.

(** Modelled from the spec: the bodies of [FieldName.normalized] and
    [EnumVariant.normalized] of [msggen.model] are not among the sources.
    A field name is normalized as the Name Normalizer is described (dashes
    become underscores, an underscore goes before every capital but the
    first, then lower case); a variant keeps its symbolic name.  The
    theorems below hold for every [FieldModel]; this instance is the one
    the worked examples are evaluated with. *)
#[export] Instance spec_model : FieldModel := {
  FieldName_normalized := normalize_path;
  EnumVariant_normalized := fun v => v
}.

(* ================================================================== *)
(** ** Notions the statements are written with                         *)
(* ================================================================== *)

Section Notions.
Import PyStr.
Context {model : FieldModel}.

(** *** Characters and strings *)

(** [s.replace("-", "_")] on one character. *)
Definition dash_to_underscore (c : ascii) : ascii :=
  if Ascii.eqb c "-" then "_"%char else c.

(** A character the normalizer has nothing to do on. *)
Definition settled (c : ascii) : bool :=
  negb (is_upper c) && negb (Ascii.eqb c "-") && Ascii.eqb (lower_char c) c.

(** [all(p(c) for c in s)]. *)
Fixpoint all_chars (p : ascii -> bool) (s : string) : bool :=
  match s with
  | "" => true
  | String c s' => p c && all_chars p s'
  end.

(** The normalizer on everything but the first character: every
    character becomes [tail_char c]. *)
Definition tail_char (c : ascii) : string :=
  let c' := dash_to_underscore c in
  if is_upper c' then String "_" (String (lower_char c') "")
  else String (lower_char c') "".

Fixpoint tail_norm (s : string) : string :=
  match s with
  | "" => ""
  | String c s' => tail_char c ++ tail_norm s'
  end.

Definition not_dot (c : ascii) : bool := negb (Ascii.eqb c ".").

(** No dot in [s]: the path has a single component. *)
Definition dotless (s : string) : bool := all_chars not_dot s.

(** *** The state of the tree after a run *)

(** The tree with the path of every primitive field normalized. *)
Fixpoint normalize_primitives (f : Field) : Field :=
  match f with
  | PrimitiveField b t => PrimitiveField (normalize_varname b) t
  | ArrayField b item d => ArrayField b (normalize_primitives item) d
  | CompositeField b t fs => CompositeField b t (map normalize_primitives fs)
  | EnumField _ _ _ | OtherField _ => f
  end.

(** [only_normalized f f']: [f'] is [f] but for the paths of some of
    its primitive fields, which are normalized. *)
#[local] Unset Elimination Schemes.
Inductive only_normalized : Field -> Field -> Prop :=
| on_primitive_kept b t :
    only_normalized (PrimitiveField b t) (PrimitiveField b t)
| on_primitive_normalized b t :
    only_normalized (PrimitiveField b t) (PrimitiveField (normalize_varname b) t)
| on_enum b t vs :
    only_normalized (EnumField b t vs) (EnumField b t vs)
| on_array b item item' d :
    only_normalized item item' ->
    only_normalized (ArrayField b item d) (ArrayField b item' d)
| on_composite b t fs fs' :
    Forall2 only_normalized fs fs' ->
    only_normalized (CompositeField b t fs) (CompositeField b t fs')
| on_other b :
    only_normalized (OtherField b) (OtherField b).
#[local] Set Elimination Schemes.



(** A method after the assignment of its request, of its response. *)
Definition with_request (m : Method) (f : Field) : Method :=
  mkMethod (method_name m) f (response m).

Definition with_response (m : Method) (f : Field) : Method :=
  mkMethod (method_name m) (request m) f.

(** One method before and after a run. *)
Definition method_only_normalized (m m' : Method) : Prop :=
  method_name m' = method_name m
  /\ only_normalized (request m) (request m')
  /\ only_normalized (response m) (response m').

(** *** Declarations and fragments *)

(** An array the override table says not to include. *)
Definition suppressed (b : FieldBase) : bool :=
  match dict_lookup overrides (path b) with
  | Some None => true
  | _ => false
  end.

(** The children that get a field line in the aggregate of their
    parent. *)
Definition has_field_line (f : Field) : bool :=
  match f with
  | PrimitiveField _ _ | EnumField _ _ _ => true
  | ArrayField b _ _ => negb (suppressed b)
  | CompositeField _ _ _ | OtherField _ => false
  end.

(** The declarations of an enum that is not overridden. *)
Definition enum_declaration (b : FieldBase) (t : string)
           (vs : list (option string)) (arms : string) : string :=
  (enum_decl_head b t ++ enum_variant_lines vs ++ "}" ++ nl ++ nl)
  ++ enum_impl_head t ++ arms ++ enum_impl_tail t.

(** The type name an array field prints: the override or the item's
    type name, put through [typemap]. *)
Definition array_fragment (b : FieldBase) (d : Z) (ty : string) : string :=
  array_defi (drop_last2 (FieldName_normalized (name b)))
             (replace "[]" "" (FieldName_normalized (name b)))
             d (dict_get typemap ty ty).

(** The arms of the conversion helper of an enum without [None]:
    variant [i] is matched by the integer [i]. *)
Fixpoint arms_from (t : string) (i : nat) (vs : list string) : string :=
  match vs with
  | [] => ""
  | v :: rest => enum_arm t i (EnumVariant_normalized v) ++ arms_from t (S i) rest
  end.

(** What a child contributes to the declarations of its parent. *)
Definition child_declarations (f : Field) (decl : string) : Prop :=
  match f with
  | PrimitiveField _ _ => decl = ""
  | EnumField b t vs =>
      exists arms,
        enum_match_arms t 0 vs = OK arms
        /\ decl = if dict_mem overrides (path b) then ""
                  else enum_declaration b t vs arms
  | ArrayField b item _ =>
      exists y,
        snd (gen_field item) = OK y
        /\ decl = if dict_mem overrides (path b) then "" else snd y
  | CompositeField _ t fs =>
      exists rs,
        Forall2 (fun f r => snd (gen_field f) = OK r) fs rs
        /\ decl = PyStr.concat (map snd rs)
                  ++ struct_head t ++ PyStr.concat (map fst rs)
                  ++ "}" ++ PyStr.nl ++ PyStr.nl
  | OtherField _ => False
  end.

(** *** Which trees render *)

(** A result that is not an exception. *)
Definition completes {A : Type} (r : result A) : bool :=
  match r with
  | OK _ => true
  | Raise _ => false
  end.

(** The fields that have the attribute [typename] the [elif] chain of
    [gen_array] reads. *)
Definition has_typename (f : Field) : bool :=
  match f with
  | PrimitiveField _ _ | CompositeField _ _ _ | EnumField _ _ _ => true
  | ArrayField _ _ _ | OtherField _ => false
  end.

Definition is_variant (v : option string) : bool :=
  match v with
  | Some _ => true
  | None => false
  end.

(** The trees no renderer raises on: every field is of a known kind, no
    enum has [None] among its variants, and every array either is
    overridden or has an item with a type name. *)
Fixpoint renders (f : Field) : bool :=
  match f with
  | PrimitiveField _ _ => true
  | EnumField _ _ vs => forallb is_variant vs
  | ArrayField b item _ =>
      renders item && (dict_mem overrides (path b) || has_typename item)
  | CompositeField _ _ fs => forallb renders fs
  | OtherField _ => false
  end.

(** What [gen_composite] can be called on without raising. *)
Definition renders_composite (f : Field) : bool :=
  match f with
  | CompositeField _ _ _ => renders f
  | _ => false
  end.

(** *** The text of a run that completes *)

(** The type name [generate_enums] prints for a request or a response. *)
Definition typename_text (f : Field) : string :=
  match typename_of f with
  | OK t => t
  | Raise _ => ""
  end.

(** The declarations [gen_composite] returns for a request or a
    response. *)
Definition declarations_of (c : Field) : string :=
  match snd (gen_composite c) with
  | OK x => snd x
  | Raise _ => ""
  end.

(** *** Runs after the first *)




End Notions.

(** *** Worked examples *)

(** A request with one optional primitive field, [short-channel-id]. *)
Definition example_service : Service :=
  mkService
    [ mkMethod "Close"
        (CompositeField (mkBase "Close" None true) "CloseRequest"
           [ PrimitiveField (mkBase "Close.short-channel-id" None false)
                            "short_channel_id" ])
        (CompositeField (mkBase "Close" None true) "CloseResponse" []) ].


(** A composite at an overridden path, with an overridden enum and a
    plain enum among its children. *)
Definition overridden_composite : Field :=
  CompositeField (mkBase "ListFunds.channels[].state" None true) "ListfundsChannelsState"
    [ EnumField (mkBase "ListPeers.peers[].channels[].opener" (Some "") true)
                "ListpeersPeersChannelsOpener" [Some "LOCAL"; Some "REMOTE"];
      EnumField (mkBase "ListFunds.channels[].state.kind" (Some "") true)
                "Kind" [Some "A"] ].

(** A response with a nested object, [address], between two scalars. *)
Definition nested_composite : Field :=
  CompositeField (mkBase "GetInfo" None true) "GetinfoResponse"
    [ PrimitiveField (mkBase "GetInfo.id" None true) "pubkey";
      CompositeField (mkBase "GetInfo.address" None true) "GetinfoAddress"
        [ PrimitiveField (mkBase "GetInfo.address.port" None true) "number" ];
      PrimitiveField (mkBase "GetInfo.alias" None true) "string" ].

(* ================================================================== *)
(** * Properties                                                       *)
(* ================================================================== *)

Unset Implicit Arguments.

(** ** Characters *)

Module CharFacts.
Import PyStr.

Ltac by_cases_on c :=
  destruct c as [[] [] [] [] [] [] [] []]; vm_compute; auto; try discriminate.

Lemma lower_dash_settled (c : ascii) :
  settled (lower_char (dash_to_underscore c)) = true.
Proof. by_cases_on c. Qed.

Lemma lower_underscore : lower_char "_" = "_"%char.
Proof. reflexivity. Qed.

Lemma settled_underscore : settled "_" = true.
Proof. reflexivity. Qed.

Lemma settled_not_upper (c : ascii) : settled c = true -> is_upper c = false.
Proof. by_cases_on c. Qed.

Lemma settled_not_dash (c : ascii) : settled c = true -> Ascii.eqb c "-" = false.
Proof. by_cases_on c. Qed.

Lemma settled_lower (c : ascii) : settled c = true -> lower_char c = c.
Proof. by_cases_on c. Qed.

Lemma lower_dash_is_dot (c : ascii) :
  Ascii.eqb (lower_char (dash_to_underscore c)) "." = Ascii.eqb c ".".
Proof. by_cases_on c. Qed.

Lemma upper_not_dot (c : ascii) : is_upper c = true -> Ascii.eqb c "." = false.
Proof. by_cases_on c. Qed.

End CharFacts.

(** ** Strings *)

Module StrFacts.
Import PyStr CharFacts.

Lemma all_chars_app p (s t : string) :
  all_chars p (s ++ t) = all_chars p s && all_chars p t.
Proof.
  induction s as [|c s IH]; simpl; [reflexivity|].
  now rewrite IH, andb_assoc.
Qed.

Lemma app_assoc (s t u : string) : (s ++ t) ++ u = s ++ (t ++ u).
Proof. induction s as [|c s IH]; simpl; [reflexivity | now rewrite IH]. Qed.

Lemma app_empty_r (s : string) : s ++ "" = s.
Proof. induction s as [|c s IH]; simpl; [reflexivity | now rewrite IH]. Qed.

(** [s.replace("-", "_")] works character by character. *)
Lemma replace_dash (s : string) :
  replace "-" "_" s = map_chars dash_to_underscore s.
Proof.
  unfold replace. induction s as [|c s IH]; [reflexivity|].
  cbn [replace_from map_chars startswith String.length Nat.sub].
  unfold dash_to_underscore at 1.
  rewrite andb_true_r, (Ascii.eqb_sym "-" c).
  destruct (Ascii.eqb c "-"); cbn; now rewrite IH.
Qed.

Lemma tail_norm_spec (s : string) :
  lower (underscore_capitals (map_chars dash_to_underscore s)) = tail_norm s.
Proof.
  induction s as [|c s IH]; [reflexivity|].
  cbn [map_chars underscore_capitals tail_norm]. unfold tail_char.
  destruct (is_upper (dash_to_underscore c)); cbn; now rewrite <- IH.
Qed.

(** [normalize_path], one character at a time. *)
Lemma normalize_path_cons (c : ascii) (s : string) :
  normalize_path (String c s)
  = String (lower_char (dash_to_underscore c)) (tail_norm s).
Proof.
  unfold normalize_path. rewrite replace_dash. cbn. now rewrite <- tail_norm_spec.
Qed.

Lemma normalize_path_nil : normalize_path "" = "".
Proof. reflexivity. Qed.

Lemma tail_norm_app (s t : string) : tail_norm (s ++ t) = tail_norm s ++ tail_norm t.
Proof.
  induction s as [|c s IH]; [reflexivity|].
  cbn [append tail_norm]. now rewrite IH, app_assoc.
Qed.

Lemma tail_char_settled (c : ascii) : all_chars settled (tail_char c) = true.
Proof. by_cases_on c. Qed.

Lemma tail_norm_settled (s : string) : all_chars settled (tail_norm s) = true.
Proof.
  induction s as [|c s IH]; [reflexivity|].
  cbn [tail_norm]. now rewrite all_chars_app, tail_char_settled, IH.
Qed.

Lemma tail_norm_fixed (s : string) :
  all_chars settled s = true -> tail_norm s = s.
Proof.
  induction s as [|c s IH]; [reflexivity|].
  cbn [all_chars tail_norm]. intros [Hc Hs]%andb_prop.
  rewrite (IH Hs). unfold tail_char, dash_to_underscore.
  rewrite (settled_not_dash _ Hc), (settled_not_upper _ Hc), (settled_lower _ Hc).
  reflexivity.
Qed.

Lemma normalize_path_settled (s : string) :
  all_chars settled (normalize_path s) = true.
Proof.
  destruct s as [|c s]; [reflexivity|].
  rewrite normalize_path_cons. cbn [all_chars].
  now rewrite lower_dash_settled, tail_norm_settled.
Qed.

Lemma normalize_path_fixed (s : string) :
  all_chars settled s = true -> normalize_path s = s.
Proof.
  destruct s as [|c s]; [reflexivity|].
  rewrite normalize_path_cons. cbn [all_chars]. intros [Hc Hs]%andb_prop.
  rewrite (tail_norm_fixed _ Hs). unfold dash_to_underscore.
  now rewrite (settled_not_dash _ Hc), (settled_lower _ Hc).
Qed.

Lemma normalize_path_idempotent (s : string) :
  normalize_path (normalize_path s) = normalize_path s.
Proof. apply normalize_path_fixed, normalize_path_settled. Qed.

End StrFacts.

Lemma normalize_varname_path (b : FieldBase) :
  path (normalize_varname b) = normalize_path (path b).
Proof. reflexivity. Qed.

Lemma normalize_varname_required (b : FieldBase) :
  required (normalize_varname b) = required b.
Proof. reflexivity. Qed.

Lemma normalize_varname_description (b : FieldBase) :
  description (normalize_varname b) = description b.
Proof. reflexivity. Qed.

Lemma FieldBase_eta (b : FieldBase) :
  b = mkBase (path b) (description b) (required b).
Proof. now destruct b. Qed.

(** C7.  Name normalization (dashes to underscores, an underscore before
    every capital that is not the first character, then lower case) is
    idempotent: normalizing a field that [normalize_varname] has already
    normalized leaves it unchanged. *)
Theorem normalize_varname_idempotent (b : FieldBase) :
  normalize_varname (normalize_varname b) = normalize_varname b.
Proof.
  rewrite (FieldBase_eta (normalize_varname (normalize_varname b))).
  rewrite (FieldBase_eta (normalize_varname b)) at 4.
  rewrite !normalize_varname_path, !normalize_varname_required,
    !normalize_varname_description.
  now rewrite StrFacts.normalize_path_idempotent.
Qed.

(** ** The name of a field, before and after normalization *)

Module NameFacts.
Import PyStr CharFacts StrFacts.

Lemma split_nonempty (sep : ascii) (s : string) : split sep s <> [].
Proof.
  destruct s as [|c s]; cbn; [discriminate|].
  destruct (split sep s); [discriminate|].
  destruct (Ascii.eqb c sep); discriminate.
Qed.

Lemma split_cons (c : ascii) (s : string) :
  split "." (String c s)
  = if Ascii.eqb c "." then "" :: split "." s
    else match split "." s with
         | seg :: rest => String c seg :: rest
         | [] => [String c ""]
         end.
Proof.
  cbn [split]. destruct (split "." s) eqn:Hs; [|reflexivity].
  now apply split_nonempty in Hs.
Qed.

Lemma split_dotless (s : string) : dotless s = true -> split "." s = [s].
Proof.
  induction s as [|c s IH]; [reflexivity|].
  unfold dotless. cbn [all_chars]. intros [Hc Hs]%andb_prop.
  rewrite split_cons, (IH Hs). unfold not_dot in Hc.
  now destruct (Ascii.eqb c ".").
Qed.

Lemma split_dotted (s : string) :
  dotless s = false -> exists x y z, split "." s = x :: y :: z.
Proof.
  induction s as [|c s IH]; [discriminate|].
  unfold dotless. cbn [all_chars]. rewrite split_cons. unfold not_dot at 1.
  destruct (Ascii.eqb c ".") eqn:Hc; cbn [negb andb].
  - intros _. destruct (split "." s) as [|y z] eqn:Hs.
    + now apply split_nonempty in Hs.
    + now exists "", y, z.
  - intros Hs. destruct (IH Hs) as (x & y & z & ->). now exists (String c x), y, z.
Qed.

Lemma name_of_path_cons (c : ascii) (s : string) :
  name_of_path (String c s)
  = if dotless s then (if Ascii.eqb c "." then s else String c s)
    else name_of_path s.
Proof.
  unfold name_of_path. rewrite split_cons.
  destruct (dotless s) eqn:Hs.
  - rewrite (split_dotless _ Hs). now destruct (Ascii.eqb c ".").
  - destruct (split_dotted _ Hs) as (x & y & z & ->).
    now destruct (Ascii.eqb c ".").
Qed.

Lemma name_of_path_dotless (s : string) : dotless s = true -> name_of_path s = s.
Proof. intros Hs. unfold name_of_path. now rewrite (split_dotless _ Hs). Qed.

Lemma dotless_app (s t : string) : dotless (s ++ t) = dotless s && dotless t.
Proof. apply all_chars_app. Qed.

Lemma name_of_path_app (pre t : string) :
  dotless t = false -> name_of_path (pre ++ t) = name_of_path t.
Proof.
  intros Ht. induction pre as [|c pre IH]; [reflexivity|].
  cbn [append]. rewrite name_of_path_cons, dotless_app, Ht, andb_false_r.
  exact IH.
Qed.

Lemma tail_char_dotless (c : ascii) : dotless (tail_char c) = not_dot c.
Proof. by_cases_on c. Qed.

Lemma tail_norm_dotless (s : string) : dotless (tail_norm s) = dotless s.
Proof.
  induction s as [|c s IH]; [reflexivity|].
  cbn [tail_norm]. rewrite dotless_app, tail_char_dotless, IH. reflexivity.
Qed.

Lemma tail_char_dot : tail_char "." = ".".
Proof. reflexivity. Qed.

Lemma name_of_tail_norm (s : string) :
  dotless s = false -> name_of_path (tail_norm s) = tail_norm (name_of_path s).
Proof.
  induction s as [|c s IH]; [discriminate|].
  intros Hcs. rewrite name_of_path_cons. cbn [tail_norm].
  destruct (dotless s) eqn:Hs.
  - unfold dotless in Hcs. cbn [all_chars] in Hcs. fold (dotless s) in Hcs.
    rewrite Hs, andb_true_r in Hcs. unfold not_dot in Hcs.
    destruct (Ascii.eqb c ".") eqn:Hc; [|discriminate].
    apply Ascii.eqb_eq in Hc. subst c. rewrite tail_char_dot.
    cbn [append]. rewrite name_of_path_cons, tail_norm_dotless, Hs. reflexivity.
  - rewrite name_of_path_app by now rewrite tail_norm_dotless.
    now apply IH.
Qed.

(** The name [gen_primitive] prints once [normalize_varname] has run:
    the whole normalized path when the path has one component, the
    last component normalized as a tail otherwise. *)
Lemma name_of_normalized (p : string) :
  name_of_path (normalize_path p)
  = if dotless p then normalize_path (name_of_path p)
    else tail_norm (name_of_path p).
Proof.
  destruct p as [|c s]; [reflexivity|].
  rewrite normalize_path_cons, !name_of_path_cons, tail_norm_dotless.
  unfold dotless at 2. cbn [all_chars]. fold (dotless s).
  rewrite lower_dash_is_dot.
  destruct (dotless s) eqn:Hs; rewrite ?andb_true_r, ?andb_false_r.
  - unfold not_dot. destruct (Ascii.eqb c ".") eqn:Hc; cbn [negb].
    + reflexivity.
    + now rewrite normalize_path_cons.
  - now apply name_of_tail_norm.
Qed.

End NameFacts.

(** C6.  A primitive field whose schema name is [short-channel-id], with
    [required] false and type name [short_channel_id], renders to a
    fragment that declares the identifier [short_channel_id], of type
    [String] wrapped in [Option], and carries the serialization alias
    ["short-channel-id"]; it has no declaration of its own. *)
Theorem gen_primitive_short_channel_id {model : FieldModel} (b : FieldBase) :
  name b = "short-channel-id" ->
  required b = false ->
  gen_field (PrimitiveField b "short_channel_id")
  = (PrimitiveField (normalize_varname b) "short_channel_id",
     OK ("    #[serde(alias = " ++ PyStr.dq ++ "short-channel-id" ++ PyStr.dq
         ++ ", skip_serializing_if = " ++ PyStr.dq ++ "Option::is_none" ++ PyStr.dq
         ++ ")]" ++ PyStr.nl
         ++ "    pub short_channel_id: Option<String>," ++ PyStr.nl,
         "")).
Proof.
  intros Hname Hreq.
  cbn [gen_field gen_primitive]. unfold primitive_defi.
  rewrite normalize_varname_required, Hreq, Hname.
  assert (Hn : name (normalize_varname b) = "short_channel_id").
  { unfold name in *. rewrite normalize_varname_path, NameFacts.name_of_normalized, Hname.
    now destruct (dotless (path b)). }
  rewrite Hn. reflexivity.
Qed.

Lemma gen_primitive_short_channel_id_witness :
  gen_field (PrimitiveField (mkBase "ListFunds.channels[].short-channel-id" None false)
                            "short_channel_id")
  = (PrimitiveField (mkBase "list_funds.channels[].short_channel_id" None false)
                    "short_channel_id",
     OK ("    #[serde(alias = " ++ PyStr.dq ++ "short-channel-id" ++ PyStr.dq
         ++ ", skip_serializing_if = " ++ PyStr.dq ++ "Option::is_none" ++ PyStr.dq
         ++ ")]" ++ PyStr.nl
         ++ "    pub short_channel_id: Option<String>," ++ PyStr.nl,
         "")).
Proof.
  apply (gen_primitive_short_channel_id
           (mkBase "ListFunds.channels[].short-channel-id" None false));
    reflexivity.
Defined.

(** ** Induction on the field tree *)

Section FieldInduction.
Variable P : Field -> Prop.
Hypothesis primitive_case : forall b t, P (PrimitiveField b t).
Hypothesis enum_case : forall b t vs, P (EnumField b t vs).
Hypothesis array_case : forall b item d, P item -> P (ArrayField b item d).
Hypothesis composite_case : forall b t fs, Forall P fs -> P (CompositeField b t fs).
Hypothesis other_case : forall b, P (OtherField b).

Fixpoint Field_ind (f : Field) : P f :=
  match f with
  | PrimitiveField b t => primitive_case b t
  | EnumField b t vs => enum_case b t vs
  | ArrayField b item d => array_case b item d (Field_ind item)
  | CompositeField b t fs =>
      composite_case b t fs
        ((fix all (l : list Field) : Forall P l :=
            match l with
            | [] => Forall_nil P
            | x :: rest => @Forall_cons _ P x rest (Field_ind x) (all rest)
            end) fs)
  | OtherField b => other_case b
  end.
End FieldInduction.

(** ** What rendering does to the tree *)

Lemma only_normalized_refl (f : Field) : only_normalized f f.
Proof.
  induction f as [b t|b t vs|b item d IH|b t fs IH|b] using Field_ind;
    try now constructor.
  constructor. induction IH; now constructor.
Qed.

Section RenderAll.
Variable render : Field -> Field * result Rendered.

Lemma render_all_cons (f : Field) (rest : list Field) :
  render_all render (f :: rest)
  = match snd (render f) with
    | Raise e => (fst (render f) :: rest, Raise e)
    | OK x =>
        (fst (render f) :: fst (render_all render rest),
         xs <- snd (render_all render rest) ;; OK (x :: xs))
    end.
Proof.
  cbn [render_all]. destruct (render f) as [f' [x|e]]; cbn [fst snd]; [|reflexivity].
  now destruct (render_all render rest).
Qed.

(** When the loop completes, every child was rendered, in order. *)
Lemma render_all_ok (fs : list Field) (rs : list Rendered) :
  snd (render_all render fs) = OK rs ->
  fst (render_all render fs) = map (fun f => fst (render f)) fs
  /\ Forall2 (fun f r => snd (render f) = OK r) fs rs.
Proof.
  revert rs. induction fs as [|f rest IH]; intros rs.
  - cbn. intros [= <-]. split; [reflexivity | constructor].
  - rewrite render_all_cons. destruct (snd (render f)) as [x|e] eqn:Hf; [|discriminate].
    cbn [fst snd]. destruct (snd (render_all render rest)) as [xs|e] eqn:Hrest;
      [|discriminate].
    cbn [bind]. intros [= <-]. destruct (IH xs eq_refl) as [-> Hall].
    split; [reflexivity | now constructor].
Qed.


Lemma render_all_touched (R : Field -> Field -> Prop) (fs : list Field) :
  (forall f, R f f) ->
  Forall (fun f => R f (fst (render f))) fs ->
  Forall2 R fs (fst (render_all render fs)).
Proof.
  intros Hrefl. induction 1 as [|f rest Hf _ IH]; [constructor|].
  rewrite render_all_cons. destruct (snd (render f)); cbn [fst].
  - now constructor.
  - constructor; [exact Hf|]. clear -Hrefl. induction rest; now constructor.
Qed.

End RenderAll.

Section Frame.
Context {model : FieldModel}.

Lemma gen_field_composite b t fs :
  gen_field (CompositeField b t fs)
  = (CompositeField b t (fst (render_all gen_field fs)),
     rs <- snd (render_all gen_field fs) ;; OK (gen_composite_body t rs)).
Proof.
  cbn [gen_field]. now destruct (render_all gen_field fs).
Qed.

Lemma gen_field_array b item d :
  gen_field (ArrayField b item d)
  = (ArrayField b (fst (gen_field item)) d,
     gen_array_body b (fst (gen_field item)) d (snd (gen_field item))).
Proof.
  cbn [gen_field]. now destruct (gen_field item).
Qed.

Lemma gen_field_primitive b t :
  gen_field (PrimitiveField b t)
  = (PrimitiveField (normalize_varname b) t,
     OK (primitive_defi (name b) (normalize_varname b) (dict_get typemap t t), "")).
Proof. reflexivity. Qed.

Lemma gen_field_enum b t vs :
  gen_field (EnumField b t vs) = (EnumField b t vs, gen_enum b t vs).
Proof. reflexivity. Qed.

Lemma gen_array_body_ok b item d rendered r :
  gen_array_body b item d rendered = OK r ->
  exists x, rendered = OK x.
Proof.
  unfold gen_array_body. destruct rendered as [x|e]; [now exists x | discriminate].
Qed.

(** A run that completes has normalized the path of every primitive
    field of the tree, and nothing else. *)
Lemma gen_field_ok_state (f : Field) (r : Rendered) :
  snd (gen_field f) = OK r -> fst (gen_field f) = normalize_primitives f.
Proof.
  revert r.
  induction f as [b t|b t vs|b item d IH|b t fs IH|b] using Field_ind; intros r.
  - reflexivity.
  - reflexivity.
  - rewrite gen_field_array. cbn [fst snd normalize_primitives].
    intros [x Hx]%gen_array_body_ok. now rewrite (IH x Hx).
  - rewrite gen_field_composite. cbn [fst snd normalize_primitives].
    destruct (snd (render_all gen_field fs)) as [rs|e] eqn:Hrs; [|discriminate].
    intros _. destruct (render_all_ok _ _ _ Hrs) as [-> Hall]. f_equal.
    clear Hrs. induction Hall as [|f x fs rs Hf _ IHall]; [reflexivity|].
    inversion IH as [|? ? Hhead Htail]; subst. cbn [map].
    now rewrite (Hhead x Hf), (IHall Htail).
  - discriminate.
Qed.

Lemma gen_field_only_normalized (f : Field) :
  only_normalized f (fst (gen_field f)).
Proof.
  induction f as [b t|b t vs|b item d IH|b t fs IH|b] using Field_ind.
  - apply on_primitive_normalized.
  - apply on_enum.
  - rewrite gen_field_array. now apply on_array.
  - rewrite gen_field_composite. apply on_composite.
    now apply render_all_touched; [apply only_normalized_refl|].
  - apply on_other.
Qed.



End Frame.

(** C9 (amended).  Rendering changes the tree in one way only: the path
    of a primitive field is replaced by its normalized form, which
    [gen_primitive] does while it renders the field, after it has read
    the original name for the alias.  The kind, type name, [required],
    description, variants, dimensions and children of every node, and the
    path of every node that is not a primitive, are as they were, whether
    the run completes or raises. *)
Theorem rendering_only_normalizes_primitive_paths {model : FieldModel} (f : Field) :
  only_normalized f (fst (gen_field f)).
Proof. apply gen_field_only_normalized. Qed.

(** C9 as stated fails: the path, and so the name, of a primitive field
    changes while its fragment is produced. *)
Lemma path_changes_while_rendering :
  let p := PrimitiveField (mkBase "Pay.max-delay" None true) "number" in
  snd (gen_field p)
  = OK ("    #[serde(alias = " ++ PyStr.dq ++ "max-delay" ++ PyStr.dq ++ ")]" ++ PyStr.nl
        ++ "    pub max_delay: i64," ++ PyStr.nl, "")
  /\ path (base (fst (gen_field p))) = "pay.max_delay"
  /\ path (base (fst (gen_field p))) <> path (base p)
  /\ name (base (fst (gen_field p))) <> name (base p).
Proof. repeat split; discriminate. Qed.

(** ** Whether a run completes does not depend on primitive paths *)

Section Completion.
Context {model : FieldModel}.

Lemma array_itemtype_after_run b (f : Field) :
  array_itemtype b (fst (gen_field f)) = array_itemtype b f.
Proof.
  destruct f; rewrite ?gen_field_composite, ?gen_field_array; reflexivity.
Qed.








End Completion.

(** ** The service emitter, run after run *)

Section Reruns.
Context {model : FieldModel}.
Variable argv : list string.

Lemma requests_loop_cons meth rest dest :
  requests_loop (meth :: rest) dest
  = let meth' := with_request meth (fst (gen_composite (request meth))) in
    match snd (gen_composite (request meth)) with
    | Raise e => (meth' :: rest, dest, Raise e)
    | OK r =>
        let next := requests_loop rest (write dest (snd r) 1) in
        (meth' :: fst (fst next), snd (fst next), snd next)
    end.
Proof.
  cbn [requests_loop]. destruct (gen_composite (request meth)) as [req [[defi decl]|e]];
    cbn [fst snd]; [|reflexivity].
  now destruct (requests_loop rest (write dest decl 1)) as [[rest' dest'] r'].
Qed.

Lemma responses_loop_cons meth rest dest :
  responses_loop (meth :: rest) dest
  = let meth' := with_response meth (fst (gen_composite (response meth))) in
    match snd (gen_composite (response meth)) with
    | Raise e => (meth' :: rest, dest, Raise e)
    | OK r =>
        let next := responses_loop rest (write dest (snd r) 1) in
        (meth' :: fst (fst next), snd (fst next), snd next)
    end.
Proof.
  cbn [responses_loop]. destruct (gen_composite (response meth)) as [res [[defi decl]|e]];
    cbn [fst snd]; [|reflexivity].
  now destruct (responses_loop rest (write dest decl 1)) as [[rest' dest'] r'].
Qed.









End Reruns.

Section Emitter.
Context {model : FieldModel}.
Variable argv : list string.

Lemma result_unit (r : result unit) (u : unit) : r = OK u -> r = OK tt.
Proof. now destruct u. Qed.



Lemma generate_requests_eq service dest :
  generate_requests service dest
  = let x := requests_loop (methods service) (write dest requests_head 0) in
    (mkService (fst (fst x)),
     match snd x with
     | Raise _ => snd (fst x)
     | OK _ => write (snd (fst x)) ("}" ++ PyStr.nl ++ PyStr.nl) 0
     end,
     match snd x with Raise e => Raise e | OK _ => OK tt end).
Proof.
  unfold generate_requests.
  now destruct (requests_loop (methods service) (write dest requests_head 0))
    as [[ms d] [u|e]].
Qed.

Lemma generate_responses_eq service dest :
  generate_responses service dest
  = let x := responses_loop (methods service) (write dest responses_head 0) in
    (mkService (fst (fst x)),
     match snd x with
     | Raise _ => snd (fst x)
     | OK _ => write (snd (fst x)) ("}" ++ PyStr.nl ++ PyStr.nl) 0
     end,
     match snd x with Raise e => Raise e | OK _ => OK tt end).
Proof.
  unfold generate_responses.
  now destruct (responses_loop (methods service) (write dest responses_head 0))
    as [[ms d] [u|e]].
Qed.



Lemma generate_eq service :
  generate argv service
  = let e := generate_enums service (write "" (header argv) 0) in
    match snd e with
    | Raise x => (service, fst e, Raise x)
    | OK _ =>
        let q := generate_requests service (fst e) in
        match snd q with
        | Raise x => (fst (fst q), snd (fst q), Raise x)
        | OK _ => generate_responses (fst (fst q)) (snd (fst q))
        end
    end.
Proof.
  unfold generate.
  destruct (generate_enums service (write "" (header argv) 0)) as [d [u|e]];
    cbn [fst snd]; [|reflexivity].
  now destruct (generate_requests service d) as [[s' d'] [u'|e']].
Qed.





End Emitter.


(** ** What each renderer returns *)

Section Rendered.
Import PyStr.
Context {model : FieldModel}.

Lemma gen_enum_ok b t vs (x : Rendered) :
  gen_enum b t vs = OK x ->
  exists arms,
    enum_match_arms t 0 vs = OK arms
    /\ x = match dict_lookup overrides (path b) with
           | Some over => (enum_defi b over, "")
           | None => (enum_defi b (Some t), enum_declaration b t vs arms)
           end.
Proof.
  unfold gen_enum. destruct (enum_match_arms t 0 vs) as [arms|e]; [|discriminate].
  cbn [bind]. intros Hx. exists arms. split; [reflexivity|].
  destruct (dict_lookup overrides (path b)); injection Hx as <-; [reflexivity|].
  unfold enum_declaration. now rewrite !StrFacts.app_assoc.
Qed.

Lemma gen_array_ok b item d (x : Rendered) :
  snd (gen_field (ArrayField b item d)) = OK x ->
  exists y ty,
    snd (gen_field item) = OK y
    /\ array_itemtype b item = OK ty
    /\ x = match ty with
           | None => ("", "")
           | Some ty =>
               (array_fragment b d ty,
                if dict_mem overrides (path b) then "" else snd y)
           end.
Proof.
  rewrite gen_field_array. cbn [snd]. unfold gen_array_body.
  rewrite array_itemtype_after_run.
  destruct (snd (gen_field item)) as [y|e]; [|discriminate]. cbn [bind].
  destruct (array_itemtype b item) as [ty|e]; [|discriminate]. cbn [bind].
  intros Hx. exists y, ty. repeat split.
  destruct ty; now injection Hx as <-.
Qed.

Lemma gen_composite_ok b t fs (x : Rendered) :
  snd (gen_field (CompositeField b t fs)) = OK x ->
  exists rs,
    Forall2 (fun f r => snd (gen_field f) = OK r) fs rs
    /\ x = ("", concat (map snd rs)
                ++ struct_head t ++ concat (map fst rs) ++ "}" ++ nl ++ nl).
Proof.
  rewrite gen_field_composite. cbn [snd].
  destruct (snd (render_all gen_field fs)) as [rs|e] eqn:Hrs; [|discriminate].
  cbn [bind]. intros [= <-]. exists rs. split; [now apply render_all_ok|].
  unfold gen_composite_body. now rewrite !StrFacts.app_assoc.
Qed.

Lemma primitive_defi_nonempty org b ty : primitive_defi org b ty <> "".
Proof. unfold primitive_defi. now destruct (required b). Qed.

Lemma enum_defi_nonempty b ty : enum_defi b ty <> "".
Proof. unfold enum_defi. now destruct (required b). Qed.

Lemma array_defi_nonempty alias ident d ty : array_defi alias ident d ty <> "".
Proof. discriminate. Qed.

Lemma struct_head_nonempty t : struct_head t <> "".
Proof. discriminate. Qed.

Lemma enum_match_arms_total t i (vs : list string) :
  enum_match_arms t i (map Some vs) = OK (arms_from t i vs).
Proof.
  revert i. induction vs as [|v rest IH]; intros i; [reflexivity|].
  cbn [map enum_match_arms arms_from]. now rewrite IH.
Qed.

Lemma enum_match_arms_none t i (vs : list (option string)) :
  In None vs -> enum_match_arms t i vs = Raise AttributeError.
Proof.
  revert i. induction vs as [|v rest IH]; intros i; [contradiction|].
  intros [->|Hin]; [reflexivity|].
  destruct v as [v|]; [|reflexivity].
  cbn [enum_match_arms]. now rewrite (IH _ Hin).
Qed.

Lemma gen_enum_none b t (vs : list (option string)) :
  In None vs -> gen_enum b t vs = Raise AttributeError.
Proof.
  intros Hin. unfold gen_enum. now rewrite (enum_match_arms_none _ _ _ Hin).
Qed.

End Rendered.

(** ** Declarations: composites, enums, arrays and the override table *)

Lemma dict_mem_lookup {V : Type} (d : dict V) (k : string) :
  dict_mem d k = match dict_lookup d k with Some _ => true | None => false end.
Proof. reflexivity. Qed.

Lemma child_declarations_ok {model : FieldModel} (f : Field) (r : Rendered) :
  snd (gen_field f) = OK r -> child_declarations f (snd r).
Proof.
  destruct f as [b t|b t vs|b item d|b t fs|b]; cbn [child_declarations].
  - now intros [= <-].
  - rewrite gen_field_enum. cbn [snd]. intros (arms & Harms & ->)%gen_enum_ok.
    exists arms. split; [exact Harms|]. rewrite dict_mem_lookup.
    now destruct (dict_lookup overrides (path b)).
  - intros (y & ty & Hy & Hty & ->)%gen_array_ok. exists y. split; [exact Hy|].
    destruct ty as [ty|]; [reflexivity|]. cbn [snd].
    unfold array_itemtype in Hty. rewrite dict_mem_lookup.
    destruct (dict_lookup overrides (path b)); [reflexivity|].
    destruct item; discriminate.
  - intros (rs & Hrs & ->)%gen_composite_ok. now exists rs.
  - discriminate.
Qed.

(** C1 (amended).  [gen_composite] does not consult the override table:
    for every composite field, overridden or not, a rendering that
    completes emits the composite's own declaration, after the
    declarations of its children in schema order.  A child composite
    contributes likewise; a child enum contributes its declaration unless
    its own path is overridden; a child array contributes the
    declarations of its item unless the array's own path is overridden,
    in which case nothing below the array is declared. *)
Theorem composite_declaration_always_emitted {model : FieldModel}
        (b : FieldBase) (t : string) (fs : list Field) (x : Rendered) :
  snd (gen_composite (CompositeField b t fs)) = OK x ->
  exists rs,
    Forall2 (fun f r => snd (gen_field f) = OK r /\ child_declarations f (snd r)) fs rs
    /\ snd x = PyStr.concat (map snd rs)
               ++ struct_head t ++ PyStr.concat (map fst rs)
               ++ "}" ++ PyStr.nl ++ PyStr.nl.
Proof.
  unfold gen_composite. intros (rs & Hrs & ->)%gen_composite_ok.
  exists rs. split; [|reflexivity].
  eapply Forall2_impl; [|exact Hrs].
  intros f r Hr. split; [exact Hr | now apply child_declarations_ok].
Qed.

Lemma composite_declaration_always_emitted_witness :
  exists rs,
    Forall2 (fun f r => snd (gen_field f) = OK r /\ child_declarations f (snd r))
            [ EnumField (mkBase "ListPeers.peers[].channels[].opener" (Some "") true)
                        "ListpeersPeersChannelsOpener" [Some "LOCAL"; Some "REMOTE"];
              EnumField (mkBase "ListFunds.channels[].state.kind" (Some "") true)
                        "Kind" [Some "A"] ]
            rs
    /\ snd (match snd (gen_composite overridden_composite) with
            | OK x => x
            | Raise _ => ("", "")
            end)
       = PyStr.concat (map snd rs)
         ++ struct_head "ListfundsChannelsState" ++ PyStr.concat (map fst rs)
         ++ "}" ++ PyStr.nl ++ PyStr.nl.
Proof.
  eapply (composite_declaration_always_emitted
            (mkBase "ListFunds.channels[].state" None true)).
  reflexivity.
Defined.

(** C1 as stated fails: a composite whose path has an entry in the
    override table is declared all the same. *)
Lemma overridden_composite_is_declared :
  dict_mem overrides (path (base overridden_composite)) = true
  /\ exists decl,
       snd (gen_composite overridden_composite) = OK ("", decl)
       /\ PyStr.contains decl "pub struct ListfundsChannelsState {" = true
       /\ PyStr.contains decl "pub enum Kind {" = true
       /\ PyStr.contains decl "pub enum ListpeersPeersChannelsOpener {" = false.
Proof.
  split; [reflexivity|]. eexists. split; [reflexivity|]. vm_compute. auto.
Qed.

(** An overridden array drops every declaration below it, also that of
    an enum that is not itself overridden. *)
Lemma overridden_array_declares_nothing_below :
  let a := ArrayField (mkBase "ListPeers.peers[].channels[].features[]" None true)
             (EnumField (mkBase "ListPeers.peers[].channels[].features[].kind" (Some "") true)
                        "Feature" [Some "A"]) 1 in
  dict_mem overrides "ListPeers.peers[].channels[].features[]" = true
  /\ dict_mem overrides "ListPeers.peers[].channels[].features[].kind" = false
  /\ snd (gen_array a)
     = OK ("    #[serde(alias = " ++ PyStr.dq ++ "features" ++ PyStr.dq ++ ")]" ++ PyStr.nl
           ++ "    pub features: Vec<String>," ++ PyStr.nl, "").
Proof. repeat split. Qed.

(** ** Fragments: the body of an aggregate *)

Lemma fragment_empty_iff {model : FieldModel} (f : Field) (r : Rendered) :
  snd (gen_field f) = OK r -> (fst r = "" <-> has_field_line f = false).
Proof.
  destruct f as [b t|b t vs|b item d|b t fs|b]; cbn [has_field_line].
  - intros [= <-]. cbn [fst]. split; [|discriminate].
    intros H. now apply primitive_defi_nonempty in H.
  - rewrite gen_field_enum. cbn [snd]. intros (arms & _ & ->)%gen_enum_ok.
    split; [|discriminate].
    destruct (dict_lookup overrides (path b)); cbn [fst];
      intros H; now apply enum_defi_nonempty in H.
  - intros (y & ty & _ & Hty & ->)%gen_array_ok.
    unfold array_itemtype in Hty. unfold suppressed.
    destruct (dict_lookup overrides (path b)) as [over|].
    + injection Hty as ->. destruct ty; cbn [fst negb]; split;
        try reflexivity; try discriminate.
    + destruct ty; cbn [fst negb]; split; try discriminate.
      destruct item; discriminate.
  - intros (rs & _ & ->)%gen_composite_ok. now split.
  - discriminate.
Qed.

(** C2 (amended).  The body of the aggregate generated for a composite
    is the concatenation, in schema order, of the fragments its children
    render to.  A primitive, an enum and an array that is not suppressed
    contribute a field line each; a child that is itself a composite
    contributes none, and neither does a suppressed array. *)
Theorem composite_body_is_children_fragments {model : FieldModel}
        (b : FieldBase) (t : string) (fs : list Field) (x : Rendered) :
  snd (gen_composite (CompositeField b t fs)) = OK x ->
  exists rs,
    Forall2 (fun f r => snd (gen_field f) = OK r
                        /\ (fst r = "" <-> has_field_line f = false)) fs rs
    /\ x = ("", PyStr.concat (map snd rs)
                ++ struct_head t ++ PyStr.concat (map fst rs)
                ++ "}" ++ PyStr.nl ++ PyStr.nl).
Proof.
  unfold gen_composite. intros (rs & Hrs & ->)%gen_composite_ok.
  exists rs. split; [|reflexivity].
  eapply Forall2_impl; [|exact Hrs].
  intros f r Hr. split; [exact Hr | now apply fragment_empty_iff].
Qed.

Lemma composite_body_is_children_fragments_witness :
  exists rs,
    Forall2 (fun f r => snd (gen_field f) = OK r
                        /\ (fst r = "" <-> has_field_line f = false))
            [ PrimitiveField (mkBase "GetInfo.id" None true) "pubkey";
              CompositeField (mkBase "GetInfo.address" None true) "GetinfoAddress"
                [ PrimitiveField (mkBase "GetInfo.address.port" None true) "number" ];
              PrimitiveField (mkBase "GetInfo.alias" None true) "string" ]
            rs
    /\ match snd (gen_composite nested_composite) with
       | OK x => x
       | Raise _ => ("", "")
       end
       = ("", PyStr.concat (map snd rs)
              ++ struct_head "GetinfoResponse" ++ PyStr.concat (map fst rs)
              ++ "}" ++ PyStr.nl ++ PyStr.nl).
Proof.
  eapply (composite_body_is_children_fragments (mkBase "GetInfo" None true)).
  reflexivity.
Defined.

(** C2 as stated fails: a child that is itself a composite, and that
    nothing suppresses, has no field line in the aggregate of its
    parent, which lists two fields for three children. *)
Lemma composite_child_has_no_field_line :
  snd (gen_composite nested_composite)
  = OK ("",
        "#[derive(Clone, Debug, Deserialize, Serialize)]" ++ PyStr.nl
        ++ "pub struct GetinfoAddress {" ++ PyStr.nl
        ++ "    #[serde(alias = " ++ PyStr.dq ++ "port" ++ PyStr.dq ++ ")]" ++ PyStr.nl
        ++ "    pub port: i64," ++ PyStr.nl
        ++ "}" ++ PyStr.nl ++ PyStr.nl
        ++ "#[derive(Clone, Debug, Deserialize, Serialize)]" ++ PyStr.nl
        ++ "pub struct GetinfoResponse {" ++ PyStr.nl
        ++ "    #[serde(alias = " ++ PyStr.dq ++ "id" ++ PyStr.dq ++ ")]" ++ PyStr.nl
        ++ "    pub id: String," ++ PyStr.nl
        ++ "    #[serde(alias = " ++ PyStr.dq ++ "alias" ++ PyStr.dq ++ ")]" ++ PyStr.nl
        ++ "    pub alias: String," ++ PyStr.nl
        ++ "}" ++ PyStr.nl ++ PyStr.nl)
  /\ suppressed (mkBase "GetInfo.address" None true) = false.
Proof. split; reflexivity. Qed.

(** ** Fragments: alias and optional marker *)

(** The field line of every kind of child.  A primitive carries an
    alias equal to its name before normalization, and its type is
    wrapped in [Option] exactly when [required] is false.  A required
    enum carries a [rename] equal to its schema name and a plain type;
    an optional enum has its type wrapped in [Option] and carries no
    attribute at all.  An array that is not suppressed carries as alias
    its normalized name less the last two characters, and its type is
    [dims] nested [Vec]s that are never wrapped in [Option], whatever
    [required] says.  A composite has no field line. *)
Lemma fragment_alias_and_optional {model : FieldModel} (f : Field) (x : Rendered) :
  snd (gen_field f) = OK x ->
  match f with
  | PrimitiveField b t =>
      let ty := dict_get typemap t t in
      fst x = "    #[serde(alias = " ++ PyStr.dq ++ name b ++ PyStr.dq
              ++ (if required b then ""
                  else ", skip_serializing_if = " ++ PyStr.dq ++ "Option::is_none"
                       ++ PyStr.dq)
              ++ ")]" ++ PyStr.nl
              ++ "    pub " ++ name (normalize_varname b) ++ ": "
              ++ (if required b then ty else "Option<" ++ ty ++ ">")
              ++ "," ++ PyStr.nl
  | EnumField b t _ =>
      let ty := match dict_lookup overrides (path b) with
                | Some over => PyStr.of_optional over
                | None => t
                end in
      fst x = if required b
              then "    // Path `" ++ path b ++ "`" ++ PyStr.nl
                   ++ "    #[serde(rename = " ++ PyStr.dq ++ name b ++ PyStr.dq ++ ")]"
                   ++ PyStr.nl
                   ++ "    pub " ++ FieldName_normalized (name b) ++ ": " ++ ty
                   ++ "," ++ PyStr.nl
              else "    pub " ++ FieldName_normalized (name b) ++ ": Option<" ++ ty
                   ++ ">," ++ PyStr.nl
  | ArrayField b item d =>
      suppressed b = false ->
      exists ty,
        array_itemtype b item = OK (Some ty)
        /\ fst x = "    #[serde(alias = " ++ PyStr.dq
                   ++ PyStr.drop_last2 (FieldName_normalized (name b)) ++ PyStr.dq
                   ++ ")]" ++ PyStr.nl
                   ++ "    pub " ++ PyStr.replace "[]" "" (FieldName_normalized (name b))
                   ++ ": " ++ PyStr.repeat "Vec<" d ++ dict_get typemap ty ty
                   ++ PyStr.repeat ">" d ++ "," ++ PyStr.nl
  | CompositeField _ _ _ => fst x = ""
  | OtherField _ => False
  end.
Proof.
  destruct f as [b t|b t vs|b item d|b t fs|b].
  - intros [= <-]. cbn [fst]. unfold primitive_defi.
    rewrite normalize_varname_required.
    destruct (required b); cbn [append]; rewrite ?StrFacts.app_assoc; reflexivity.
  - rewrite gen_field_enum. cbn [snd]. intros (arms & _ & ->)%gen_enum_ok.
    destruct (dict_lookup overrides (path b)); cbn [fst]; unfold enum_defi;
      destruct (required b); reflexivity.
  - intros (y & ty & _ & Hty & ->)%gen_array_ok Hsup.
    destruct ty as [ty|].
    + exists ty. split; [exact Hty|]. cbn [fst]. unfold array_fragment, array_defi.
      rewrite ?StrFacts.app_assoc. reflexivity.
    + exfalso. unfold array_itemtype in Hty. unfold suppressed in Hsup.
      destruct (dict_lookup overrides (path b)) as [[over|]|]; try discriminate.
      destruct item; discriminate.
  - now intros (rs & _ & ->)%gen_composite_ok.
  - discriminate.
Qed.

Lemma fragment_alias_and_optional_witness :
  fst (match snd (gen_field (PrimitiveField (mkBase "Pay.max-delay" None false) "number")) with
       | OK x => x
       | Raise _ => ("", "")
       end)
  = "    #[serde(alias = " ++ PyStr.dq ++ "max-delay" ++ PyStr.dq
    ++ ", skip_serializing_if = " ++ PyStr.dq ++ "Option::is_none" ++ PyStr.dq
    ++ ")]" ++ PyStr.nl
    ++ "    pub max_delay: Option<i64>," ++ PyStr.nl.
Proof.
  apply (fragment_alias_and_optional
           (PrimitiveField (mkBase "Pay.max-delay" None false) "number")).
  reflexivity.
Defined.

(** The type of an array field whose [required] is false is not wrapped
    in the optional marker: [gen_array] never reads [required]. *)
Lemma optional_array_is_not_wrapped :
  let a := ArrayField (mkBase "Pay.routehints[]" None false)
             (PrimitiveField (mkBase "Pay.routehints[]" None true) "hex") 1 in
  required (base a) = false
  /\ suppressed (base a) = false
  /\ exists frag,
       snd (gen_field a) = OK (frag, "")
       /\ frag = "    #[serde(alias = " ++ PyStr.dq ++ "routehints" ++ PyStr.dq ++ ")]"
                 ++ PyStr.nl
                 ++ "    pub routehints: Vec<String>," ++ PyStr.nl
       /\ PyStr.contains frag "Option<" = false.
Proof.
  repeat split. eexists. repeat split.
Qed.

(** C3.  The field line of a child is to carry a serialization alias
    equal to the child's schema name, for every kind and in particular
    for an optional enum.  [gen_enum] does wrap the type of an optional
    enum in [Option], but the line carries no alias: the branch for
    [required] false assigns an attribute line to [defi] and then assigns
    the field line over it, so that the fragment of every optional enum
    is the field line alone, without the [rename] the branch for
    [required] true writes and without any other attribute. *)
Theorem optional_enum_fragment_has_no_alias {model : FieldModel}
        (b : FieldBase) (t : string) (vs : list (option string)) (x : Rendered) :
  required b = false ->
  gen_enum b t vs = OK x ->
  fst x = "    pub " ++ FieldName_normalized (name b) ++ ": Option<"
          ++ match dict_lookup overrides (path b) with
             | Some over => PyStr.of_optional over
             | None => t
             end
          ++ ">," ++ PyStr.nl.
Proof.
  intros Hreq (arms & _ & ->)%gen_enum_ok.
  destruct (dict_lookup overrides (path b)); cbn [fst]; unfold enum_defi;
    now rewrite Hreq.
Qed.

Lemma optional_enum_fragment_has_no_alias_witness :
  fst (match gen_enum (mkBase "ListPeers.peers[].connected-state" (Some "") false)
                      "ConnectedState" [Some "UP"; Some "DOWN"] with
       | OK x => x
       | Raise _ => ("", "")
       end)
  = "    pub connected_state: Option<ConnectedState>," ++ PyStr.nl.
Proof.
  exact (optional_enum_fragment_has_no_alias
           (mkBase "ListPeers.peers[].connected-state" (Some "") false)
           "ConnectedState" [Some "UP"; Some "DOWN"]
           (match gen_enum (mkBase "ListPeers.peers[].connected-state" (Some "") false)
                           "ConnectedState" [Some "UP"; Some "DOWN"] with
            | OK x => x
            | Raise _ => ("", "")
            end)
           eq_refl eq_refl).
Defined.

(** The same enum with [required] true: its line carries the [rename]. *)
Lemma required_enum_fragment_has_rename :
  fst (match gen_enum (mkBase "ListPeers.peers[].connected-state" (Some "") true)
                      "ConnectedState" [Some "UP"; Some "DOWN"] with
       | OK x => x
       | Raise _ => ("", "")
       end)
  = "    // Path `ListPeers.peers[].connected-state`" ++ PyStr.nl
    ++ "    #[serde(rename = " ++ PyStr.dq ++ "connected-state" ++ PyStr.dq ++ ")]"
    ++ PyStr.nl
    ++ "    pub connected_state: ConnectedState," ++ PyStr.nl.
Proof. reflexivity. Qed.

(** ** The override table and the type name of a fragment *)

(** C5 (amended).  For an enum field whose path has an override that is
    not the suppress value, the override's string is the type name of
    the fragment as it stands, and the enum has no declaration.  For an
    array field whose path has such an override, the type name of the
    fragment is the override's string put through [typemap] (so the
    string itself only when it is not a key of [typemap]), and neither
    the array nor anything below it has a declaration.  Primitive fields
    do not consult the override table. *)
Theorem override_type_name {model : FieldModel} (f : Field) (over : string) (x : Rendered) :
  dict_lookup overrides (path (base f)) = Some (Some over) ->
  snd (gen_field f) = OK x ->
  match f with
  | EnumField b _ _ =>
      x = (if required b
           then "    // Path `" ++ path b ++ "`" ++ PyStr.nl
                ++ "    #[serde(rename = " ++ PyStr.dq ++ name b ++ PyStr.dq ++ ")]"
                ++ PyStr.nl
                ++ "    pub " ++ FieldName_normalized (name b) ++ ": " ++ over
                ++ "," ++ PyStr.nl
           else "    pub " ++ FieldName_normalized (name b) ++ ": Option<" ++ over
                ++ ">," ++ PyStr.nl,
           "")
  | ArrayField b _ d =>
      x = ("    #[serde(alias = " ++ PyStr.dq
           ++ PyStr.drop_last2 (FieldName_normalized (name b)) ++ PyStr.dq
           ++ ")]" ++ PyStr.nl
           ++ "    pub " ++ PyStr.replace "[]" "" (FieldName_normalized (name b))
           ++ ": " ++ PyStr.repeat "Vec<" d
           ++ match dict_lookup typemap over with
              | Some mapped => mapped
              | None => over
              end
           ++ PyStr.repeat ">" d ++ "," ++ PyStr.nl,
           "")
  | PrimitiveField b t =>
      x = (primitive_defi (name b) (normalize_varname b) (dict_get typemap t t), "")
  | CompositeField _ _ _ | OtherField _ => True
  end.
Proof.
  destruct f as [b t|b t vs|b item d|b t fs|b]; cbn [base]; intros Hover; try easy.
  - now intros [= <-].
  - rewrite gen_field_enum. cbn [snd]. intros (arms & _ & ->)%gen_enum_ok.
    rewrite Hover. unfold enum_defi. now destruct (required b).
  - intros (y & ty & _ & Hty & ->)%gen_array_ok.
    unfold array_itemtype in Hty. rewrite Hover in Hty. injection Hty as <-.
    rewrite dict_mem_lookup, Hover. unfold array_fragment, array_defi, dict_get.
    rewrite ?StrFacts.app_assoc. reflexivity.
Qed.

Lemma override_type_name_witness :
  match snd (gen_field
               (EnumField (mkBase "ListFunds.channels[].state" (Some "") false)
                          "ListfundsChannelsState" [Some "OPENINGD"])) with
  | OK x => x
  | Raise _ => ("", "")
  end
  = ("    pub state: Option<ChannelState>," ++ PyStr.nl, "").
Proof.
  exact (override_type_name
           (EnumField (mkBase "ListFunds.channels[].state" (Some "") false)
                      "ListfundsChannelsState" [Some "OPENINGD"])
           "ChannelState"
           ("    pub state: Option<ChannelState>," ++ PyStr.nl, "")
           eq_refl eq_refl).
Defined.

(** C5 as stated fails: the override of [features[]] is the string
    [string], and the fragment names the type [String], which is what
    [typemap] makes of it. *)
Lemma array_override_goes_through_typemap :
  let a := ArrayField (mkBase "ListPeers.peers[].channels[].features[]" None true)
             (PrimitiveField (mkBase "ListPeers.peers[].channels[].features[]" None true)
                             "hex") 1 in
  dict_lookup overrides (path (base a)) = Some (Some "string")
  /\ exists frag,
       snd (gen_field a) = OK (frag, "")
       /\ frag = "    #[serde(alias = " ++ PyStr.dq ++ "features" ++ PyStr.dq ++ ")]"
                 ++ PyStr.nl
                 ++ "    pub features: Vec<String>," ++ PyStr.nl
       /\ PyStr.contains frag "Vec<string>" = false.
Proof.
  split; [reflexivity|]. eexists. repeat split.
Qed.

(** ** Arrays of arrays *)

Lemma gen_array_completes_only_if {model : FieldModel} b item d (x : Rendered) :
  snd (gen_array (ArrayField b item d)) = OK x ->
  dict_mem overrides (path b) = true
  \/ (exists b' t, item = PrimitiveField b' t)
  \/ (exists b' t fs, item = CompositeField b' t fs)
  \/ (exists b' t vs, item = EnumField b' t vs).
Proof.
  unfold gen_array. intros (y & ty & _ & Hty & _)%gen_array_ok.
  unfold array_itemtype in Hty. rewrite dict_mem_lookup.
  destruct (dict_lookup overrides (path b)); [now left | right].
  destruct item; try discriminate; eauto 6.
Qed.

(** C10.  Rendering an array field completes only if its item is a
    primitive, a composite or an enum, or its path is overridden: for an
    array whose item is itself an array and whose path has no override,
    [gen_array] raises instead of returning a fragment. *)
Theorem gen_array_of_array_raises {model : FieldModel}
        (b b' : FieldBase) (item : Field) (d d' : Z) :
  dict_mem overrides (path b) = false ->
  exists e, snd (gen_array (ArrayField b (ArrayField b' item d') d)) = Raise e.
Proof.
  intros Hover.
  destruct (snd (gen_array (ArrayField b (ArrayField b' item d') d))) as [x|e] eqn:Hrun;
    [|now exists e].
  apply gen_array_completes_only_if in Hrun.
  destruct Hrun as [H|[(? & ? & H)|[(? & ? & ? & H)|(? & ? & ? & H)]]];
    congruence.
Qed.

Lemma gen_array_of_array_raises_witness :
  exists e,
    snd (gen_array
           (ArrayField (mkBase "Pay.routes[]" None true)
              (ArrayField (mkBase "Pay.routes[][]" None true)
                 (PrimitiveField (mkBase "Pay.routes[][]" None true) "hex") 1) 1))
    = Raise e.
Proof.
  apply (gen_array_of_array_raises (mkBase "Pay.routes[]" None true)). reflexivity.
Defined.

(** The exception is Python's for a local variable read before any
    branch has bound it. *)
Lemma gen_array_of_array_unbound :
  snd (gen_array
         (ArrayField (mkBase "Pay.routes[]" None true)
            (ArrayField (mkBase "Pay.routes[][]" None true)
               (PrimitiveField (mkBase "Pay.routes[][]" None true) "hex") 1) 1))
  = Raise UnboundLocalError.
Proof. reflexivity. Qed.

(** ** The numeric-conversion helper of an enum *)

(** For an enum without [None] among its variants the helper has one
    arm per variant, the variant at index [i] matched by the integer
    [i], then the arm that reports every other integer with the name of
    the enum. *)
Lemma gen_enum_helper {model : FieldModel} b t (vs : list string) :
  dict_lookup overrides (path b) = None ->
  gen_enum b t (map Some vs)
  = OK (enum_defi b (Some t),
        enum_declaration b t (map Some vs) (arms_from t 0 vs)).
Proof.
  intros Hover. unfold gen_enum, enum_declaration.
  rewrite enum_match_arms_total, Hover. cbn [bind].
  now rewrite !StrFacts.app_assoc.
Qed.

(** C4.  The enum [ChannelState] with variants [OPENING],
    [CHANNELD_NORMAL], [None], [CLOSED]: the helper is to map 0 and 1 to
    the first two variants, report 2 and map 3 to [CLOSED].  [gen_enum]
    emits no helper at all for it: the loop that writes the arms calls
    [normalized] on every variant, also on [None], and raises. *)
Theorem gen_enum_null_variant_raises {model : FieldModel} (b : FieldBase) :
  gen_enum b "ChannelState"
           [Some "OPENING"; Some "CHANNELD_NORMAL"; None; Some "CLOSED"]
  = Raise AttributeError.
Proof. apply gen_enum_none. cbn. auto. Qed.

(* ================================================================== *)
(** * Further properties of the renderers and of the emitter           *)
(* ================================================================== *)

(** ** Which trees render *)

Section Completes.
Context {model : FieldModel}.

Lemma completes_ok {A : Type} (r : result A) :
  completes r = true <-> exists x, r = OK x.
Proof.
  destruct r as [x|e]; cbn; split; eauto; try discriminate.
  intros [x Hx]. discriminate.
Qed.

Lemma enum_match_arms_completes t i vs :
  completes (enum_match_arms t i vs) = forallb is_variant vs.
Proof.
  revert i. induction vs as [|[v|] rest IH]; intros i; cbn [enum_match_arms forallb is_variant];
    try reflexivity.
  rewrite <- (IH (S i)). now destruct (enum_match_arms t (S i) rest).
Qed.

Lemma gen_enum_completes b t vs :
  completes (gen_enum b t vs) = forallb is_variant vs.
Proof.
  rewrite <- (enum_match_arms_completes t 0 vs). unfold gen_enum.
  destruct (enum_match_arms t 0 vs); cbn [bind completes]; [|reflexivity].
  now destruct (dict_lookup overrides (path b)).
Qed.

Lemma has_typename_after_run (f : Field) :
  has_typename (fst (gen_field f)) = has_typename f.
Proof.
  destruct f; rewrite ?gen_field_composite, ?gen_field_array; reflexivity.
Qed.

Lemma array_itemtype_completes b item :
  completes (array_itemtype b item) = dict_mem overrides (path b) || has_typename item.
Proof.
  unfold array_itemtype. rewrite dict_mem_lookup.
  destruct (dict_lookup overrides (path b)); [reflexivity|]. now destruct item.
Qed.

Lemma gen_array_body_completes_bool b item d rendered :
  completes (gen_array_body b item d rendered)
  = completes rendered && completes (array_itemtype b item).
Proof.
  unfold gen_array_body. destruct rendered as [x|e]; cbn [bind completes andb];
    [|reflexivity].
  now destruct (array_itemtype b item) as [[ty|]|e].
Qed.

Lemma render_all_completes (render : Field -> Field * result Rendered) fs :
  completes (snd (render_all render fs))
  = forallb (fun f => completes (snd (render f))) fs.
Proof.
  induction fs as [|f rest IH]; [reflexivity|].
  rewrite render_all_cons. cbn [forallb].
  destruct (snd (render f)); cbn [snd completes andb]; [|reflexivity].
  rewrite <- IH. now destruct (snd (render_all render rest)).
Qed.

Lemma gen_field_completes (f : Field) :
  completes (snd (gen_field f)) = renders f.
Proof.
  induction f as [b t|b t vs|b item d IH|b t fs IH|b] using Field_ind;
    cbn [renders]; try reflexivity.
  - rewrite gen_field_enum. apply gen_enum_completes.
  - rewrite gen_field_array. cbn [snd].
    rewrite gen_array_body_completes_bool, IH, array_itemtype_completes.
    now rewrite has_typename_after_run.
  - rewrite gen_field_composite. cbn [snd].
    transitivity (completes (snd (render_all gen_field fs))).
    { now destruct (snd (render_all gen_field fs)). }
    rewrite render_all_completes.
    induction IH as [|f fs Hf _ IHfs]; [reflexivity|].
    cbn [forallb]. now rewrite Hf, IHfs.
Qed.

Lemma gen_composite_completes (c : Field) :
  completes (snd (gen_composite c)) = renders_composite c.
Proof. destruct c; try reflexivity. apply gen_field_completes. Qed.

End Completes.

(** X1.  [gen_enum] returns a result exactly when none of the variants
    is [None]; when one is, it raises, overridden or not, since the loop
    that writes the arms of the conversion helper runs before the
    override table is looked at. *)
Theorem gen_enum_completes_iff {model : FieldModel}
        (b : FieldBase) (t : string) (vs : list (option string)) :
  (exists x, gen_enum b t vs = OK x) <-> ~ In None vs.
Proof.
  rewrite <- completes_ok, gen_enum_completes, forallb_forall. split.
  - intros Hall Hin. now apply Hall in Hin.
  - intros Hnone [v|] Hin; [reflexivity | contradiction].
Qed.

(** X2.  [gen_field] returns a result exactly on the trees in which
    every field is of one of the four kinds, no enum has [None] among
    its variants, and every array that is not overridden has a
    primitive, a composite or an enum as its item. *)
Theorem gen_field_completes_iff {model : FieldModel} (f : Field) :
  (exists x, snd (gen_field f) = OK x) <-> renders f = true.
Proof. now rewrite <- completes_ok, gen_field_completes. Qed.

(** ** Which services generate *)

Section GenerateCompletes.
Context {model : FieldModel}.
Variable argv : list string.

Lemma forallb_compose {A B : Type} (p : B -> bool) (g : A -> B) (l : list A) :
  forallb (fun a => p (g a)) l = forallb p (map g l).
Proof. induction l as [|a l IH]; [reflexivity|]. cbn. now rewrite IH. Qed.

Lemma forallb_both {A : Type} (p q : A -> bool) (l : list A) :
  forallb (fun a => p a && q a) l = forallb p l && forallb q l.
Proof.
  induction l as [|a l IH]; [reflexivity|]. cbn. rewrite IH.
  destruct (p a), (q a), (forallb p l); reflexivity.
Qed.

Lemma forallb_weaken {A : Type} (p q : A -> bool) (l : list A) :
  (forall a, p a = true -> q a = true) ->
  forallb p l = true -> forallb q l = true.
Proof.
  intros Hpq. rewrite !forallb_forall. auto.
Qed.

Lemma typename_of_completes (f : Field) :
  completes (typename_of f) = has_typename f.
Proof. now destruct f. Qed.

Lemma renders_composite_has_typename (f : Field) :
  renders_composite f = true -> has_typename f = true.
Proof. now destruct f. Qed.

Lemma request_variants_completes ms dest :
  completes (snd (request_variants ms dest))
  = forallb (fun m => has_typename (request m)) ms.
Proof.
  revert dest. induction ms as [|m rest IH]; intros dest; [reflexivity|].
  cbn [request_variants forallb]. rewrite <- typename_of_completes.
  destruct (typename_of (request m)); cbn [completes snd andb]; [apply IH | reflexivity].
Qed.

Lemma response_variants_completes ms dest :
  completes (snd (response_variants ms dest))
  = forallb (fun m => has_typename (response m)) ms.
Proof.
  revert dest. induction ms as [|m rest IH]; intros dest; [reflexivity|].
  cbn [response_variants forallb]. rewrite <- typename_of_completes.
  destruct (typename_of (response m)); cbn [completes snd andb]; [apply IH | reflexivity].
Qed.

Lemma generate_enums_completes service dest :
  completes (snd (generate_enums service dest))
  = forallb (fun m => has_typename (request m)) (methods service)
    && forallb (fun m => has_typename (response m)) (methods service).
Proof.
  unfold generate_enums.
  rewrite <- (request_variants_completes (methods service) (write dest request_enum_head 0)).
  destruct (request_variants _ _) as [d1 [u1|e1]]; cbn [snd completes andb];
    [|reflexivity].
  rewrite <- (response_variants_completes (methods service) (write d1 response_enum_head 0)).
  now destruct (response_variants _ _) as [d2 [u2|e2]].
Qed.

Lemma requests_loop_completes ms dest :
  completes (snd (requests_loop ms dest))
  = forallb (fun m => renders_composite (request m)) ms.
Proof.
  revert dest. induction ms as [|m rest IH]; intros dest; [reflexivity|].
  rewrite requests_loop_cons. cbv zeta. cbn [forallb].
  rewrite <- gen_composite_completes.
  destruct (snd (gen_composite (request m))); cbn [snd completes andb];
    [apply IH | reflexivity].
Qed.

Lemma responses_loop_completes ms dest :
  completes (snd (responses_loop ms dest))
  = forallb (fun m => renders_composite (response m)) ms.
Proof.
  revert dest. induction ms as [|m rest IH]; intros dest; [reflexivity|].
  rewrite responses_loop_cons. cbv zeta. cbn [forallb].
  rewrite <- gen_composite_completes.
  destruct (snd (gen_composite (response m))); cbn [snd completes andb];
    [apply IH | reflexivity].
Qed.

(** The loop over the requests never touches a response, and the loop
    over the responses never touches a request. *)
Lemma requests_loop_keeps_responses ms dest :
  map response (fst (fst (requests_loop ms dest))) = map response ms.
Proof.
  revert dest. induction ms as [|m rest IH]; intros dest; [reflexivity|].
  rewrite requests_loop_cons. cbv zeta.
  destruct (snd (gen_composite (request m))); cbn [fst map with_request response];
    [now rewrite IH | reflexivity].
Qed.

Lemma responses_loop_keeps_requests ms dest :
  map request (fst (fst (responses_loop ms dest))) = map request ms.
Proof.
  revert dest. induction ms as [|m rest IH]; intros dest; [reflexivity|].
  rewrite responses_loop_cons. cbv zeta.
  destruct (snd (gen_composite (response m))); cbn [fst map with_response request];
    [now rewrite IH | reflexivity].
Qed.

Lemma generate_requests_completes service dest :
  completes (snd (generate_requests service dest))
  = forallb (fun m => renders_composite (request m)) (methods service).
Proof.
  rewrite generate_requests_eq. cbv zeta. cbn [snd].
  rewrite <- (requests_loop_completes (methods service) (write dest requests_head 0)).
  now destruct (snd (requests_loop _ _)).
Qed.

Lemma generate_responses_completes service dest :
  completes (snd (generate_responses service dest))
  = forallb (fun m => renders_composite (response m)) (methods service).
Proof.
  rewrite generate_responses_eq. cbv zeta. cbn [snd].
  rewrite <- (responses_loop_completes (methods service) (write dest responses_head 0)).
  now destruct (snd (responses_loop _ _)).
Qed.

Lemma generate_completes service :
  completes (snd (generate argv service))
  = forallb (fun m => renders_composite (request m) && renders_composite (response m))
            (methods service).
Proof.
  rewrite forallb_both, generate_eq. cbv zeta.
  pose proof (generate_enums_completes service (write "" (header argv) 0)) as He.
  destruct (snd (generate_enums service _)) as [u|e]; cbn [completes] in He.
  - pose proof (generate_requests_completes service
                  (fst (generate_enums service (write "" (header argv) 0)))) as Hq.
    destruct (snd (generate_requests service _)) as [u'|e'] eqn:Hrun;
      cbn [completes] in Hq.
    + rewrite <- Hq, generate_responses_completes. cbn [andb].
      rewrite generate_requests_eq. cbv zeta. cbn [fst methods].
      rewrite (forallb_compose renders_composite response (fst (fst (requests_loop _ _)))).
      rewrite requests_loop_keeps_responses.
      now rewrite <- (forallb_compose renders_composite response).
    + cbn [snd completes]. now rewrite <- Hq.
  - cbn [snd completes]. symmetry. apply not_true_is_false. intros Hall.
    apply andb_prop in Hall. destruct Hall as [Hreq Hres].
    symmetry in He. apply andb_false_iff in He. destruct He as [He|He].
    + apply (forallb_weaken _ (fun m => has_typename (request m))) in Hreq;
        [congruence|]. intros m. apply renders_composite_has_typename.
    + apply (forallb_weaken _ (fun m => has_typename (response m))) in Hres;
        [congruence|]. intros m. apply renders_composite_has_typename.
Qed.

End GenerateCompletes.

(** X3.  [generate] runs to the end exactly on the services in which
    the request and the response of every method is a composite field
    whose tree renders (see [renders]); a service without methods is one
    of them. *)
Theorem generate_completes_iff {model : FieldModel} (argv : list string)
        (service : Service) :
  snd (generate argv service) = OK tt
  <-> forallb (fun m => renders_composite (request m) && renders_composite (response m))
              (methods service) = true.
Proof.
  rewrite <- (generate_completes argv).
  destruct (snd (generate argv service)) as [[]|e]; cbn.
  - now split.
  - split; discriminate.
Qed.

(** ** Exceptions: where a run stops and what it leaves behind *)

Section Failure.
Context {model : FieldModel}.

Lemma renders_ok_state (f : Field) :
  renders f = true ->
  exists x, snd (gen_field f) = OK x /\ fst (gen_field f) = normalize_primitives f.
Proof.
  rewrite <- gen_field_completes. intros [x Hx]%completes_ok.
  exists x. split; [exact Hx | now apply (gen_field_ok_state f x)].
Qed.

Lemma render_all_first_failure pre f post e :
  forallb renders pre = true ->
  snd (gen_field f) = Raise e ->
  render_all gen_field (pre ++ f :: post)%list
  = ((map normalize_primitives pre ++ fst (gen_field f) :: post)%list, Raise e).
Proof.
  intros Hpre Hf. induction pre as [|g pre IH]; cbn [app map].
  - rewrite render_all_cons, Hf. reflexivity.
  - cbn [forallb] in Hpre. apply andb_prop in Hpre. destruct Hpre as [Hg Hpre].
    destruct (renders_ok_state g Hg) as (x & Hx & Hst).
    rewrite render_all_cons, Hx, Hst, (IH Hpre). reflexivity.
Qed.

End Failure.

(** X4.  [gen_composite] stops at the first child that raises and
    raises that child's exception: the children before it have been
    rendered, so the paths of their primitive fields are normalized; the
    children after it have not been touched. *)
Theorem gen_composite_stops_at_first_failure {model : FieldModel}
        (b : FieldBase) (t : string) (pre post : list Field) (f : Field) (e : PyError) :
  forallb renders pre = true ->
  snd (gen_field f) = Raise e ->
  gen_composite (CompositeField b t (pre ++ f :: post)%list)
  = (CompositeField b t (map normalize_primitives pre ++ fst (gen_field f) :: post)%list,
     Raise e).
Proof.
  intros Hpre Hf. unfold gen_composite. rewrite gen_field_composite.
  now rewrite (render_all_first_failure pre f post e Hpre Hf).
Qed.

Lemma gen_composite_stops_at_first_failure_witness :
  gen_composite
    (CompositeField (mkBase "Pay" None true) "PayRequest"
       ([PrimitiveField (mkBase "Pay.max-delay" None true) "number"]
        ++ OtherField (mkBase "Pay.x" None true)
        :: [PrimitiveField (mkBase "Pay.min-delay" None true) "number"])%list)
  = (CompositeField (mkBase "Pay" None true) "PayRequest"
       [ PrimitiveField (mkBase "pay.max_delay" None true) "number";
         OtherField (mkBase "Pay.x" None true);
         PrimitiveField (mkBase "Pay.min-delay" None true) "number" ],
     Raise ValueError).
Proof.
  apply (gen_composite_stops_at_first_failure
           (mkBase "Pay" None true) "PayRequest"
           [PrimitiveField (mkBase "Pay.max-delay" None true) "number"]
           [PrimitiveField (mkBase "Pay.min-delay" None true) "number"]
           (OtherField (mkBase "Pay.x" None true)) ValueError);
    reflexivity.
Defined.

(** X5.  An exception raised while the item of an array is rendered is
    the exception [gen_array] raises, whatever the override table says
    of the array: the item is rendered before the table is looked at. *)
Theorem gen_array_raises_with_item {model : FieldModel}
        (b : FieldBase) (item : Field) (d : Z) (e : PyError) :
  snd (gen_field item) = Raise e ->
  snd (gen_array (ArrayField b item d)) = Raise e.
Proof.
  intros Hitem. unfold gen_array. rewrite gen_field_array. cbn [snd].
  unfold gen_array_body. now rewrite Hitem.
Qed.

Lemma gen_array_raises_with_item_witness :
  snd (gen_array
         (ArrayField (mkBase "ListTransactions.transactions[].type[]" None true)
            (EnumField (mkBase "ListTransactions.transactions[].type[]" (Some "") true)
                       "TxType" [Some "deposit"; None]) 1))
  = Raise AttributeError.
Proof.
  apply (gen_array_raises_with_item
           (mkBase "ListTransactions.transactions[].type[]" None true)).
  reflexivity.
Defined.

(** X6.  An array the override table marks as not to be included
    contributes neither a fragment nor a declaration, but its item is
    rendered all the same: the primitive paths below it are normalized,
    and the array has a result only if the item has one. *)
Theorem gen_array_suppressed {model : FieldModel}
        (b : FieldBase) (item : Field) (d : Z) :
  dict_lookup overrides (path b) = Some None ->
  gen_array (ArrayField b item d)
  = (ArrayField b (fst (gen_field item)) d,
     match snd (gen_field item) with
     | OK _ => OK ("", "")
     | Raise e => Raise e
     end).
Proof.
  intros Hover. unfold gen_array. rewrite gen_field_array. f_equal.
  unfold gen_array_body, array_itemtype. rewrite Hover.
  now destruct (snd (gen_field item)).
Qed.

Lemma gen_array_suppressed_witness :
  gen_array
    (ArrayField (mkBase "ListTransactions.transactions[].type[]" None true)
       (PrimitiveField (mkBase "ListTransactions.transactions[].type[]" None true)
                       "string") 1)
  = (ArrayField (mkBase "ListTransactions.transactions[].type[]" None true)
       (PrimitiveField (mkBase "list_transactions.transactions[].type[]" None true)
                       "string") 1,
     OK ("", "")).
Proof.
  apply (gen_array_suppressed
           (mkBase "ListTransactions.transactions[].type[]" None true)).
  reflexivity.
Defined.

(** X7.  A rendering that returns a result has visited the whole tree:
    it leaves the path of every primitive field normalized, also of
    those below an overridden or a suppressed array, whose declarations
    and fragments it throws away. *)
Theorem gen_field_normalizes_every_primitive {model : FieldModel}
        (f : Field) (x : Rendered) :
  snd (gen_field f) = OK x ->
  fst (gen_field f) = normalize_primitives f.
Proof. apply gen_field_ok_state. Qed.

Lemma gen_field_normalizes_every_primitive_witness :
  fst (gen_field
         (ArrayField (mkBase "ListPeers.peers[].channels[].features[]" None true)
            (CompositeField (mkBase "ListPeers.peers[].channels[].features[]" None true)
               "Feature"
               [PrimitiveField (mkBase "ListPeers.peers[].channels[].features[].bit-no"
                                       None true) "number"]) 1))
  = ArrayField (mkBase "ListPeers.peers[].channels[].features[]" None true)
      (CompositeField (mkBase "ListPeers.peers[].channels[].features[]" None true)
         "Feature"
         [PrimitiveField (mkBase "list_peers.peers[].channels[].features[].bit_no"
                                 None true) "number"]) 1.
Proof.
  eapply (gen_field_normalizes_every_primitive
            (ArrayField (mkBase "ListPeers.peers[].channels[].features[]" None true)
               (CompositeField (mkBase "ListPeers.peers[].channels[].features[]" None true)
                  "Feature"
                  [PrimitiveField (mkBase "ListPeers.peers[].channels[].features[].bit-no"
                                          None true) "number"]) 1)).
  reflexivity.
Defined.

(** ** The type map *)

(** X8.  No Rust type name that [typemap] produces is itself a schema
    type name: putting a type name through [typemap] twice gives what
    putting it through once gives.  So [gen_array], which puts through
    [typemap] what it has read from the override table, leaves an
    override alone that already is a mapped name. *)
Theorem typemap_idempotent (t : string) :
  dict_get typemap (dict_get typemap t t) (dict_get typemap t t)
  = dict_get typemap t t.
Proof.
  unfold dict_get at 2 3. unfold typemap at 2 3. cbn [dict_lookup].
  repeat match goal with
         | |- context [String.eqb ?k t] =>
             let E := fresh "E" in
             destruct (String.eqb k t) eqn:E;
             [apply String.eqb_eq in E; subst t; reflexivity|]
         end.
  unfold dict_get, typemap. cbn [dict_lookup].
  repeat match goal with
         | E : String.eqb ?k t = false |- _ => rewrite E; clear E
         end.
  reflexivity.
Qed.

(** ** The layout of the generated file *)

Section Layout.
Import PyStr Textwrap.
Context {model : FieldModel}.
Variable argv : list string.

Lemma concat_cons (x : string) (l : list string) :
  PyStr.concat (x :: l) = x ++ PyStr.concat l.
Proof.
  unfold PyStr.concat. destruct l as [|y l]; cbn [String.concat].
  - now rewrite StrFacts.app_empty_r.
  - reflexivity.
Qed.

Lemma write_indented dest text :
  write dest text 1 = dest ++ indent text tab.
Proof. reflexivity. Qed.

Lemma write_dedented dest text :
  write dest text 0 = dest ++ dedent text.
Proof. reflexivity. Qed.

Lemma request_variants_text ms dest u :
  snd (request_variants ms dest) = OK u ->
  fst (request_variants ms dest)
  = dest ++ PyStr.concat
              (map (fun m => indent (method_name m ++ "(requests::"
                                     ++ typename_text (request m) ++ ")," ++ nl) tab) ms).
Proof.
  revert dest. induction ms as [|m rest IH]; intros dest.
  - intros _. cbn. now rewrite StrFacts.app_empty_r.
  - cbn [request_variants map]. unfold typename_text at 1.
    destruct (typename_of (request m)) as [t|e]; [|discriminate].
    intros Hrest. rewrite (IH _ Hrest), write_indented, concat_cons.
    now rewrite StrFacts.app_assoc.
Qed.

Lemma response_variants_text ms dest u :
  snd (response_variants ms dest) = OK u ->
  fst (response_variants ms dest)
  = dest ++ PyStr.concat
              (map (fun m => indent (method_name m ++ "(responses::"
                                     ++ typename_text (response m) ++ ")," ++ nl) tab) ms).
Proof.
  revert dest. induction ms as [|m rest IH]; intros dest.
  - intros _. cbn. now rewrite StrFacts.app_empty_r.
  - cbn [response_variants map]. unfold typename_text at 1.
    destruct (typename_of (response m)) as [t|e]; [|discriminate].
    intros Hrest. rewrite (IH _ Hrest), write_indented, concat_cons.
    now rewrite StrFacts.app_assoc.
Qed.

Lemma generate_enums_text service dest u :
  snd (generate_enums service dest) = OK u ->
  fst (generate_enums service dest)
  = dest ++ dedent request_enum_head
    ++ PyStr.concat
         (map (fun m => indent (method_name m ++ "(requests::"
                                ++ typename_text (request m) ++ ")," ++ nl) tab)
              (methods service))
    ++ dedent response_enum_head
    ++ PyStr.concat
         (map (fun m => indent (method_name m ++ "(responses::"
                                ++ typename_text (response m) ++ ")," ++ nl) tab)
              (methods service))
    ++ dedent response_enum_tail.
Proof.
  unfold generate_enums.
  pose proof (request_variants_text (methods service) (write dest request_enum_head 0))
    as H1.
  destruct (request_variants _ _) as [d1 [u1|e1]]; [|discriminate].
  cbn [fst snd] in H1. rewrite (H1 u1 eq_refl). clear H1.
  pose proof (response_variants_text (methods service)
                (write ((write dest request_enum_head 0) ++ PyStr.concat
                   (map (fun m => indent (method_name m ++ "(requests::"
                                          ++ typename_text (request m) ++ ")," ++ nl) tab)
                        (methods service))) response_enum_head 0)) as H2.
  destruct (response_variants _ _) as [d2 [u2|e2]]; [|discriminate].
  cbn [fst snd] in H2. rewrite (H2 u2 eq_refl). intros _. cbn [fst].
  rewrite !write_dedented, !StrFacts.app_assoc. reflexivity.
Qed.

Lemma requests_loop_text ms dest u :
  snd (requests_loop ms dest) = OK u ->
  snd (fst (requests_loop ms dest))
  = dest ++ PyStr.concat (map (fun m => indent (declarations_of (request m)) tab) ms).
Proof.
  revert dest. induction ms as [|m rest IH]; intros dest.
  - intros _. cbn. now rewrite StrFacts.app_empty_r.
  - rewrite requests_loop_cons. cbv zeta. cbn [map]. unfold declarations_of at 1.
    destruct (snd (gen_composite (request m))) as [x|e]; [|discriminate].
    cbn [fst snd]. intros Hrest.
    rewrite (IH _ Hrest), write_indented, concat_cons.
    now rewrite StrFacts.app_assoc.
Qed.

Lemma responses_loop_text ms dest u :
  snd (responses_loop ms dest) = OK u ->
  snd (fst (responses_loop ms dest))
  = dest ++ PyStr.concat (map (fun m => indent (declarations_of (response m)) tab) ms).
Proof.
  revert dest. induction ms as [|m rest IH]; intros dest.
  - intros _. cbn. now rewrite StrFacts.app_empty_r.
  - rewrite responses_loop_cons. cbv zeta. cbn [map]. unfold declarations_of at 1.
    destruct (snd (gen_composite (response m))) as [x|e]; [|discriminate].
    cbn [fst snd]. intros Hrest.
    rewrite (IH _ Hrest), write_indented, concat_cons.
    now rewrite StrFacts.app_assoc.
Qed.

Lemma map_through {A B C : Type} (g : B -> C) (h : A -> B) (l l' : list A) :
  map h l' = map h l -> map (fun a => g (h a)) l' = map (fun a => g (h a)) l.
Proof.
  intros H. rewrite <- (map_map h g l'), <- (map_map h g l). now rewrite H.
Qed.

Lemma generate_text service service' out :
  generate argv service = (service', out, OK tt) ->
  out
  = dedent (header argv)
    ++ dedent request_enum_head
    ++ PyStr.concat
         (map (fun m => indent (method_name m ++ "(requests::"
                                ++ typename_text (request m) ++ ")," ++ nl) tab)
              (methods service))
    ++ dedent response_enum_head
    ++ PyStr.concat
         (map (fun m => indent (method_name m ++ "(responses::"
                                ++ typename_text (response m) ++ ")," ++ nl) tab)
              (methods service))
    ++ dedent response_enum_tail
    ++ dedent requests_head
    ++ PyStr.concat
         (map (fun m => indent (declarations_of (request m)) tab) (methods service))
    ++ dedent ("}" ++ nl ++ nl)
    ++ dedent responses_head
    ++ PyStr.concat
         (map (fun m => indent (declarations_of (response m)) tab) (methods service))
    ++ dedent ("}" ++ nl ++ nl).
Proof.
  rewrite generate_eq. cbv zeta.
  pose proof (generate_enums_text service (write "" (header argv) 0)) as He.
  destruct (snd (generate_enums service _)) as [u|e]; [|discriminate].
  rewrite (He u eq_refl). clear He.
  rewrite generate_requests_eq. cbv zeta. cbn [fst snd].
  match goal with
  | |- context [requests_loop (methods service) ?d] =>
      pose proof (requests_loop_text (methods service) d) as Hq;
      pose proof (requests_loop_keeps_responses (methods service) d) as Hkeep
  end.
  destruct (snd (requests_loop (methods service) _)) as [u'|e']; [|discriminate].
  rewrite (Hq u' eq_refl). clear Hq.
  rewrite generate_responses_eq. cbv zeta. cbn [fst snd methods].
  match goal with
  | |- context [responses_loop ?ms ?d] =>
      pose proof (responses_loop_text ms d) as Hr
  end.
  destruct (snd (responses_loop _ _)) as [u''|e'']; [|discriminate].
  rewrite (Hr u'' eq_refl). clear Hr. intros Hrun.
  apply (f_equal (fun p => snd (fst p))) in Hrun. cbv beta in Hrun.
  cbn [fst snd] in Hrun. rewrite <- Hrun. clear Hrun.
  rewrite (map_through (fun f => indent (declarations_of f) tab) response _ _ Hkeep).
  rewrite !write_dedented, !StrFacts.app_assoc. reflexivity.
Qed.

End Layout.

(** X9.  The text of a run that completes is, in this order: the
    header with the command line; the [Request] enum with one line per
    method, each indented by one tab; the [Response] enum likewise; the
    module [requests] with the declarations of every request, each block
    indented by one tab; the module [responses] likewise.  Methods
    appear in the order of the service everywhere.  The templates are
    dedented as a whole; the lines and blocks of the methods are indented
    without being dedented. *)
Theorem generate_layout {model : FieldModel} (argv : list string)
        (service service' : Service) (out : string) :
  generate argv service = (service', out, OK tt) ->
  out
  = Textwrap.dedent (header argv)
    ++ Textwrap.dedent request_enum_head
    ++ PyStr.concat
         (map (fun m => Textwrap.indent
                          (method_name m ++ "(requests::"
                           ++ typename_text (request m) ++ ")," ++ PyStr.nl) PyStr.tab)
              (methods service))
    ++ Textwrap.dedent response_enum_head
    ++ PyStr.concat
         (map (fun m => Textwrap.indent
                          (method_name m ++ "(responses::"
                           ++ typename_text (response m) ++ ")," ++ PyStr.nl) PyStr.tab)
              (methods service))
    ++ Textwrap.dedent response_enum_tail
    ++ Textwrap.dedent requests_head
    ++ PyStr.concat
         (map (fun m => Textwrap.indent (declarations_of (request m)) PyStr.tab)
              (methods service))
    ++ Textwrap.dedent ("}" ++ PyStr.nl ++ PyStr.nl)
    ++ Textwrap.dedent responses_head
    ++ PyStr.concat
         (map (fun m => Textwrap.indent (declarations_of (response m)) PyStr.tab)
              (methods service))
    ++ Textwrap.dedent ("}" ++ PyStr.nl ++ PyStr.nl).
Proof. apply generate_text. Qed.

Lemma generate_layout_witness :
  snd (fst (generate ["msggen"] example_service))
  = Textwrap.dedent (header ["msggen"])
    ++ Textwrap.dedent request_enum_head
    ++ PyStr.concat
         (map (fun m => Textwrap.indent
                          (method_name m ++ "(requests::"
                           ++ typename_text (request m) ++ ")," ++ PyStr.nl) PyStr.tab)
              (methods example_service))
    ++ Textwrap.dedent response_enum_head
    ++ PyStr.concat
         (map (fun m => Textwrap.indent
                          (method_name m ++ "(responses::"
                           ++ typename_text (response m) ++ ")," ++ PyStr.nl) PyStr.tab)
              (methods example_service))
    ++ Textwrap.dedent response_enum_tail
    ++ Textwrap.dedent requests_head
    ++ PyStr.concat
         (map (fun m => Textwrap.indent (declarations_of (request m)) PyStr.tab)
              (methods example_service))
    ++ Textwrap.dedent ("}" ++ PyStr.nl ++ PyStr.nl)
    ++ Textwrap.dedent responses_head
    ++ PyStr.concat
         (map (fun m => Textwrap.indent (declarations_of (response m)) PyStr.tab)
              (methods example_service))
    ++ Textwrap.dedent ("}" ++ PyStr.nl ++ PyStr.nl).
Proof.
  apply (generate_layout ["msggen"] example_service
           (fst (fst (generate ["msggen"] example_service)))).
  vm_compute. reflexivity.
Defined.

(** ** What a run does to the service *)

Section ServiceFrame.
Context {model : FieldModel}.
Variable argv : list string.

Lemma gen_composite_only_normalized (c : Field) :
  only_normalized c (fst (gen_composite c)).
Proof.
  destruct c; try apply only_normalized_refl. apply gen_field_only_normalized.
Qed.

Lemma method_only_normalized_refl (m : Method) : method_only_normalized m m.
Proof. repeat split; apply only_normalized_refl. Qed.

Lemma Forall2_refl {A : Type} (R : A -> A -> Prop) (l : list A) :
  (forall a, R a a) -> Forall2 R l l.
Proof. intros HR. induction l; now constructor. Qed.

Lemma Forall2_compose {A : Type} (R1 R2 R : A -> A -> Prop) (l1 l2 l3 : list A) :
  (forall a b c, R1 a b -> R2 b c -> R a c) ->
  Forall2 R1 l1 l2 -> Forall2 R2 l2 l3 -> Forall2 R l1 l3.
Proof.
  intros HR H12. revert l3. induction H12 as [|x y k1 k2 Hxy _ IH]; intros l3 H23.
  - inversion H23. constructor.
  - inversion H23 as [|? z ? k3 Hyz Hrest]; subst. constructor; eauto.
Qed.

Lemma requests_loop_frame ms dest :
  Forall2 (fun m m' => method_name m' = method_name m
                       /\ only_normalized (request m) (request m')
                       /\ response m' = response m)
          ms (fst (fst (requests_loop ms dest))).
Proof.
  revert dest. induction ms as [|m rest IH]; intros dest; [constructor|].
  rewrite requests_loop_cons. cbv zeta.
  assert (Hm : method_name (with_request m (fst (gen_composite (request m))))
               = method_name m
               /\ only_normalized (request m)
                    (request (with_request m (fst (gen_composite (request m)))))
               /\ response (with_request m (fst (gen_composite (request m))))
                  = response m).
  { repeat split. apply gen_composite_only_normalized. }
  destruct (snd (gen_composite (request m))); cbn [fst]; constructor; auto.
  apply Forall2_refl. intros a. repeat split. apply only_normalized_refl.
Qed.

Lemma responses_loop_frame ms dest :
  Forall2 (fun m m' => method_name m' = method_name m
                       /\ request m' = request m
                       /\ only_normalized (response m) (response m'))
          ms (fst (fst (responses_loop ms dest))).
Proof.
  revert dest. induction ms as [|m rest IH]; intros dest; [constructor|].
  rewrite responses_loop_cons. cbv zeta.
  assert (Hm : method_name (with_response m (fst (gen_composite (response m))))
               = method_name m
               /\ request (with_response m (fst (gen_composite (response m))))
                  = request m
               /\ only_normalized (response m)
                    (response (with_response m (fst (gen_composite (response m)))))).
  { repeat split. apply gen_composite_only_normalized. }
  destruct (snd (gen_composite (response m))); cbn [fst]; constructor; auto.
  apply Forall2_refl. intros a. repeat split. apply only_normalized_refl.
Qed.

Lemma generate_frame service :
  Forall2 method_only_normalized
          (methods service) (methods (fst (fst (generate argv service)))).
Proof.
  rewrite generate_eq. cbv zeta.
  destruct (snd (generate_enums service _)); cbn [fst];
    [|apply Forall2_refl, method_only_normalized_refl].
  rewrite generate_requests_eq. cbv zeta. cbn [fst snd].
  match goal with
  | |- context [requests_loop (methods service) ?d] =>
      pose proof (requests_loop_frame (methods service) d) as Hq
  end.
  destruct (snd (requests_loop (methods service) _)); cbn [fst methods].
  - rewrite generate_responses_eq. cbv zeta. cbn [fst methods].
    match goal with
    | |- context [responses_loop ?ms ?d] =>
        pose proof (responses_loop_frame ms d) as Hr
    end.
    eapply Forall2_compose; [|exact Hq|exact Hr].
    intros m1 m2 m3 (Hn1 & Hreq & Hres) (Hn2 & Hreq' & Hres').
    unfold method_only_normalized. rewrite Hn2, Hn1, Hreq', <- Hres. auto.
  - eapply Forall2_impl; [|exact Hq].
    intros m1 m2 (Hn & Hreq & Hres). unfold method_only_normalized.
    rewrite Hn, Hres. repeat split; [exact Hreq | apply only_normalized_refl].
Qed.

End ServiceFrame.

(** X10.  Whether it completes or raises, [generate] leaves the service
    with the same methods in the same order and under the same names;
    the request and the response of each are what they were but for the
    paths of primitive fields, some of which are normalized. *)
Theorem generate_only_normalizes {model : FieldModel} (argv : list string)
        (service : Service) :
  Forall2 method_only_normalized
          (methods service) (methods (fst (fst (generate argv service)))).
Proof. apply generate_frame. Qed.

(** ** The conversion helper of an enum is positional *)

Section Positional.
Import PyStr.
Context {model : FieldModel}.

Lemma startswith_app (a b sub : string) :
  startswith a sub = true -> startswith (a ++ b) sub = true.
Proof.
  revert a. induction sub as [|c sub IH]; intros a; [reflexivity|].
  destruct a as [|c' a]; cbn [startswith append]; [discriminate|].
  intros [Hc Hsub]%andb_prop. now rewrite Hc, (IH a Hsub).
Qed.

Lemma startswith_refl (s : string) : startswith s s = true.
Proof.
  induction s as [|c s IH]; [reflexivity|].
  cbn [startswith]. now rewrite Ascii.eqb_refl, IH.
Qed.

Lemma contains_app_l (a b sub : string) :
  contains a sub = true -> contains (a ++ b) sub = true.
Proof.
  induction a as [|c a IH].
  - cbn [contains]. rewrite orb_false_r. intros H.
    destruct sub; [|discriminate]. now destruct b.
  - cbn [contains append]. intros [H|H]%orb_prop.
    + pose proof (startswith_app (String c a) b sub H) as H'.
      cbn [append] in H'. now rewrite H'.
    + rewrite (IH H). apply orb_true_r.
Qed.

Lemma contains_app_r (a b sub : string) :
  contains b sub = true -> contains (a ++ b) sub = true.
Proof.
  intros H. induction a as [|c a IH]; [exact H|].
  cbn [contains append]. rewrite IH. apply orb_true_r.
Qed.

Lemma contains_prefix (sub b : string) : contains (sub ++ b) sub = true.
Proof.
  apply contains_app_l. destruct sub; cbn [contains]; [reflexivity|].
  now rewrite startswith_refl.
Qed.

Lemma arms_from_contains t k (vs : list string) i v :
  nth_error vs i = Some v ->
  contains (arms_from t k vs) (enum_arm t (k + i) (EnumVariant_normalized v)) = true.
Proof.
  revert k i. induction vs as [|w rest IH]; intros k [|i]; cbn [nth_error arms_from];
    try discriminate.
  - intros [= ->]. rewrite Nat.add_0_r. apply contains_prefix.
  - intros Hi. apply contains_app_r. rewrite <- Nat.add_succ_comm. now apply IH.
Qed.

End Positional.

(** X11.  For an enum that has no [None] among its variants and is not
    overridden, the conversion helper in the declaration has, for the
    variant at every index [i], the arm that matches the integer [i] and
    returns that variant: the table is positional. *)
Theorem enum_helper_is_positional {model : FieldModel}
        (b : FieldBase) (t : string) (vs : list string) (i : nat) (v : string) :
  dict_lookup overrides (path b) = None ->
  nth_error vs i = Some v ->
  exists defi decl,
    gen_enum b t (map Some vs) = OK (defi, decl)
    /\ PyStr.contains decl
         ("    " ++ PyStr.of_nat i ++ " => Ok(" ++ t ++ "::"
          ++ EnumVariant_normalized v ++ ")," ++ PyStr.nl) = true.
Proof.
  intros Hover Hi. rewrite (gen_enum_helper b t vs Hover).
  do 2 eexists. split; [reflexivity|].
  unfold enum_declaration. apply contains_app_r, contains_app_r, contains_app_l.
  exact (arms_from_contains t 0 vs i v Hi).
Qed.

Lemma enum_helper_is_positional_witness :
  exists defi decl,
    gen_enum (mkBase "GetInfo.network" (Some "") true) "Network"
             (map Some ["bitcoin"; "testnet"; "regtest"])
    = OK (defi, decl)
    /\ PyStr.contains decl
         ("    " ++ PyStr.of_nat 2 ++ " => Ok(" ++ "Network" ++ "::"
          ++ EnumVariant_normalized "regtest" ++ ")," ++ PyStr.nl) = true.
Proof.
  apply (enum_helper_is_positional (mkBase "GetInfo.network" (Some "") true) "Network"
           ["bitcoin"; "testnet"; "regtest"] 2 "regtest");
    reflexivity.
Defined.

(** ** What [normalize_varname] makes of a path *)

Section Normalized.
Import PyStr CharFacts StrFacts NameFacts.

Lemma all_chars_weaken (p q : ascii -> bool) (s : string) :
  (forall c, p c = true -> q c = true) ->
  all_chars p s = true -> all_chars q s = true.
Proof.
  intros Hpq. induction s as [|c s IH]; [reflexivity|].
  cbn [all_chars]. intros [Hc Hs]%andb_prop. now rewrite (Hpq c Hc), (IH Hs).
Qed.

Lemma split_length_cons (c : ascii) (s : string) :
  List.length (split "." (String c s))
  = (if Ascii.eqb c "." then 1 else 0) + List.length (split "." s).
Proof.
  rewrite split_cons. destruct (Ascii.eqb c "."); [reflexivity|].
  destruct (split "." s) eqn:Hs; [|reflexivity].
  now apply split_nonempty in Hs.
Qed.

Lemma split_length_tail_char (c : ascii) (s : string) :
  List.length (split "." (tail_char c ++ s))
  = (if Ascii.eqb c "." then 1 else 0) + List.length (split "." s).
Proof.
  unfold tail_char. destruct (is_upper (dash_to_underscore c)); cbn [append];
    rewrite !split_length_cons, lower_dash_is_dot; reflexivity.
Qed.

Lemma split_length_tail_norm (s : string) :
  List.length (split "." (tail_norm s)) = List.length (split "." s).
Proof.
  induction s as [|c s IH]; [reflexivity|].
  cbn [tail_norm]. now rewrite split_length_tail_char, split_length_cons, IH.
Qed.

Lemma split_length_normalize_path (p : string) :
  List.length (split "." (normalize_path p)) = List.length (split "." p).
Proof.
  destruct p as [|c s]; [reflexivity|].
  rewrite normalize_path_cons, !split_length_cons, lower_dash_is_dot.
  now rewrite split_length_tail_norm.
Qed.

Lemma name_of_settled (p : string) :
  all_chars settled (name_of_path p) = true ->
  name_of_path (normalize_path p) = name_of_path p.
Proof.
  intros Hname. rewrite name_of_normalized.
  destruct (dotless p); [now apply normalize_path_fixed | now apply tail_norm_fixed].
Qed.

End Normalized.

(** X12.  For a path made of code points below 256, which is what a
    [string] holds here and where [str.lower] works one character at a
    time, the identifier [gen_primitive] prints is computed from the name
    as follows.  When the path has a single component it is the
    normalized name.  When the path has several, it is the name with
    every dash turned into an underscore and every capital from A to Z,
    the first character included, turned into an underscore and its
    lower case: the capital that starts a name is not the first character
    of the path.  (Beyond that alphabet [str.lower] looks at the
    neighbours of a character, a final sigma for one, and nothing is
    stated here.) *)
Theorem primitive_identifier (b : FieldBase) :
  name (normalize_varname b)
  = if dotless (path b) then normalize_path (name b) else tail_norm (name b).
Proof.
  unfold name. rewrite normalize_varname_path. apply NameFacts.name_of_normalized.
Qed.

(** X13.  After [normalize_varname] the path of a field has no dash and
    no capital from A to Z. *)
Theorem normalized_path_has_no_dash_no_capital (b : FieldBase) :
  all_chars (fun c => negb (PyStr.is_upper c) && negb (Ascii.eqb c "-"))
            (path (normalize_varname b)) = true.
Proof.
  rewrite normalize_varname_path.
  apply (all_chars_weaken settled); [|apply StrFacts.normalize_path_settled].
  intros c Hc. now rewrite (CharFacts.settled_not_upper c Hc), (CharFacts.settled_not_dash c Hc).
Qed.

(** X14.  [normalize_varname] neither adds nor removes a component of
    the path: the normalized path splits at its dots into as many parts
    as the path did. *)
Theorem normalize_varname_keeps_components (b : FieldBase) :
  List.length (PyStr.split "." (path (normalize_varname b)))
  = List.length (PyStr.split "." (path b)).
Proof. rewrite normalize_varname_path. apply split_length_normalize_path. Qed.

(** X15.  A primitive field whose name has nothing to normalize (no
    dash, no capital) is declared under that very name, which is also
    its alias.  Nothing is escaped: this holds for [type] and [in], the
    words the module lists as [keywords]. *)
Theorem primitive_with_settled_name {model : FieldModel} (b : FieldBase) (t : string) :
  all_chars settled (name b) = true ->
  snd (gen_field (PrimitiveField b t))
  = OK ("    #[serde(alias = " ++ PyStr.dq ++ name b ++ PyStr.dq
        ++ (if required b then ""
            else ", skip_serializing_if = " ++ PyStr.dq ++ "Option::is_none" ++ PyStr.dq)
        ++ ")]" ++ PyStr.nl
        ++ "    pub " ++ name b ++ ": "
        ++ (if required b then dict_get typemap t t
            else "Option<" ++ dict_get typemap t t ++ ">")
        ++ "," ++ PyStr.nl,
        "").
Proof.
  intros Hname. rewrite gen_field_primitive. cbn [snd]. unfold primitive_defi.
  rewrite normalize_varname_required.
  replace (name (normalize_varname b)) with (name b)
    by (symmetry; unfold name; rewrite normalize_varname_path; now apply name_of_settled).
  destruct (required b); cbn [append]; rewrite ?StrFacts.app_assoc; reflexivity.
Qed.

Lemma primitive_with_settled_name_witness :
  snd (gen_field (PrimitiveField (mkBase "ListTransactions.transactions[].type" None true)
                                 "string"))
  = OK ("    #[serde(alias = " ++ PyStr.dq ++ "type" ++ PyStr.dq ++ ")]" ++ PyStr.nl
        ++ "    pub type: String," ++ PyStr.nl,
        "").
Proof.
  apply (primitive_with_settled_name
           (mkBase "ListTransactions.transactions[].type" None true) "string").
  reflexivity.
Defined.

Lemma keywords_are_settled (k : string) :
  In k keywords -> all_chars settled k = true.
Proof. intros [<-|[<-|[]]]; reflexivity. Qed.

(** ** Runs after the first *)

Section LaterRuns.
Context {model : FieldModel}.
Variable argv : list string.







End LaterRuns.


